(** * pathvis: a shallow embedding of the path-traceroute daemon

    The development follows the layout of the Python package
    [path_traceroute]: one module per source file, holding the data model
    and the operations as executable definitions, followed by the
    properties proved about them.

    Conventions used throughout.
    - A hop is [option string]: [None] is Python's [None] (no responder).
    - Clock readings (the floats returned by [time.time()] and
      [get_utc_time()]) are only ever compared, added to a TTL or used as
      dictionary keys; they are modelled as integers of type [Z].
    - Python exceptions are explicit: fallible functions return [result].
    - A Python [dict] whose iteration order is irrelevant is a [gmap]; the
      [OrderedDict] of the reverse-name store is an association list in
      insertion order. *)

From Stdlib Require Import Ascii.
From stdpp Require Import gmap strings list fin_maps pretty.

Open Scope string_scope.
Open Scope list_scope.
Open Scope Z_scope.

(** ** Python values shared by several modules *)

Module Py.

(** Exceptions that escape the modelled functions. *)
Inductive exn :=
| TracerouteError (msg : string)
| IndexError
| KeyError
| ValueError (msg : string).

Inductive result (A : Type) :=
| Ok (a : A)
| Raise (e : exn).
Arguments Ok {A} a.
Arguments Raise {A} e.

#[export] Instance result_bind : MBind result := λ A B k r,
  match r with
  | Ok a => k a
  | Raise e => Raise e
  end.

(** [' '.join(l)] and [''.join(l)]. *)
Fixpoint join (sep : string) (l : list string) : string :=
  match l with
  | [] => ""
  | [x] => x
  | x :: rest => x +:+ sep +:+ join sep rest
  end.

(** [str(n)] for an [int]. *)
Definition str_int (n : Z) : string := pretty n.

(** Characters on which [str.split()] and [str.strip()] cut: the ASCII
    members of [str.isspace]. *)
Definition is_space (a : ascii) : bool :=
  let n := nat_of_ascii a in
  (((9 <=? n) && (n <=? 13)) || ((28 <=? n) && (n <=? 32)))%nat.

(** [s.split()]: maximal runs of non-space characters, in order. *)
Fixpoint split_go (cur : option string) (s : string) : list string :=
  match s with
  | EmptyString =>
      match cur with
      | Some w => [w]
      | None => []
      end
  | String a s' =>
      if is_space a then
        match cur with
        | Some w => w :: split_go None s'
        | None => split_go None s'
        end
      else
        split_go (Some (match cur with
                        | Some w => w +:+ String a EmptyString
                        | None => String a EmptyString
                        end)) s'
  end.

Definition split (s : string) : list string := split_go None s.

End Py.

(** ** tracer/traceroute.py *)

Module Traceroute.
Import Py.

Definition hop := option string.

(** What the module reads from its surroundings: [platform.system()], the
    module constant [IS_PRIVILEGED], the answer of [ipaddress.IPv6Address]
    and the iteration order CPython gives a [set] of strings. *)
Record platform := {
  system : string;
  IS_PRIVILEGED : bool;
  is_ipv6 : string → bool;
  list_of_set : gset string → list string
}.

(** The class hierarchy: [Traceroute] with its three subclasses. *)
Inductive implementation :=
| TracerouteBase
| BSDTraceroute
| LinuxTraceroute
| WindowsTraceroute.

Definition _nonroot_capabilities (cls : implementation) : gset string :=
  match cls with
  | LinuxTraceroute => {[ "udp" ]}
  | WindowsTraceroute => {[ "icmp" ]}
  | _ => {[ "icmp"; "udp"; "tcp"; "gre" ]}
  end.

Definition _root_capabilities (cls : implementation) : gset string :=
  match cls with
  | LinuxTraceroute => {[ "icmp"; "udp"; "tcp" ]}
  | WindowsTraceroute => {[ "icmp" ]}
  | _ => {[ "icmp"; "udp"; "tcp"; "gre" ]}
  end.

Definition _ipv6_capabilities (cls : implementation) : gset string :=
  match cls with
  | WindowsTraceroute => {[ "icmp" ]}
  | _ => {[ "icmp"; "udp" ]}
  end.

(** A [Traceroute] instance (the handle [troute] of the running child is
    the [child] argument of [trace]). *)
Record Traceroute := {
  cls : implementation;
  giveup : Z;
  max_hops : Z;
  pref : list string;
  probe_timeout : Z
}.

Definition default_pref : list string := ["icmp"; "udp"; "tcp"].

(** [capabilities(cls, ipv6, privileged)] *)
Definition capabilities (env : platform) (c : implementation)
    (ipv6 : bool) (privileged : bool) : gset string :=
  let my_capabilities := _nonroot_capabilities c in
  let my_capabilities :=
    if privileged || IS_PRIVILEGED env then _root_capabilities c
    else my_capabilities in
  if ipv6 then my_capabilities ∩ _ipv6_capabilities c else my_capabilities.

Definition capabilities_for_host (env : platform) (self : Traceroute)
    (host : string) : gset string :=
  let ipv6 := is_ipv6 env host in
  capabilities env (cls self) ipv6 (IS_PRIVILEGED env).

(** The list comprehension shared by [_get_best], [traceroute] and
    [TracerouteTracer.cycle_protocol]:
    [[proto for proto in pref if proto in capabilities] + list(capabilities)] *)
Definition cap_by_pref (env : platform) (pref : list string)
    (capabilities : gset string) : list string :=
  filter (λ proto, proto ∈ capabilities) pref ++ list_of_set env capabilities.

Definition _get_best (env : platform) (self : Traceroute) (ipv6 : bool)
    : result string :=
  let capabilities := capabilities env (cls self) ipv6 (IS_PRIVILEGED env) in
  match cap_by_pref env (pref self) capabilities with
  | proto :: _ => Ok proto
  | [] => Raise IndexError
  end.

Definition timeout_and_hops (self : Traceroute) : list string :=
  (if bool_decide (probe_timeout self = 0) then []
   else ["-w"; str_int (probe_timeout self)]) ++
  (if bool_decide (max_hops self = 0) then []
   else ["-m"; str_int (max_hops self)]).

Definition _ipv6_cmd (self : Traceroute) (host proto : string) : list string :=
  match cls self with
  | LinuxTraceroute =>
      if bool_decide (proto = "icmp") then
        ["traceroute"; "-6"; "-I"; "-n"; "-q1"; host]
      else if bool_decide (proto = "tcp") then
        ["traceroute"; "-6"; "-T"; "-n"; "-q1"; host]
      else ["traceroute"; "-6"; "-n"; "-q1"; host]
  | WindowsTraceroute => ["tracert"; "/6"; "/d"; "/h"; "64"; host]
  | _ =>
      (["traceroute6"; "-n"; "-q1"] ++
       (if bool_decide (proto = "icmp") then ["-I"] else [])) ++
      timeout_and_hops self ++ [host]
  end.

Definition _ipv4_cmd (self : Traceroute) (host proto : string) : list string :=
  match cls self with
  | LinuxTraceroute =>
      if bool_decide (proto = "icmp") then
        ["traceroute"; "-4"; "-I"; "-n"; "-q1"; host]
      else if bool_decide (proto = "tcp") then
        ["traceroute"; "-4"; "-T"; "-n"; "-q1"; host]
      else ["traceroute"; "-4"; "-n"; "-q1"; host]
  | WindowsTraceroute => ["tracert"; "/4"; "/d"; "/h"; "64"; host]
  | _ =>
      ["traceroute"; "-n"; "-q1"; "-P"; proto] ++
      timeout_and_hops self ++ [host]
  end.

(** [parse_line]: the second whitespace-separated field, [None] when there
    is none or when it is a star. *)
Definition parse_line (line : string) : hop :=
  match split line !! 1%nat with
  | None => None
  | Some ip => if bool_decide (ip = "*") then None else Some ip
  end.

(** The loop of [Traceroute.parse_output] over the lines still to be read.
    The boolean tells whether the child was sent [terminate()]. *)
Fixpoint parse_lines (giveup : Z) (starcount : Z) (result : list hop)
    (lines : list string) : list hop * bool :=
  match lines with
  | [] => (result, false)
  | line :: rest =>
      let ip := parse_line line in
      let starcount := if ip is None then starcount + 1 else 0 in
      let result := result ++ [ip] in
      if bool_decide (starcount = giveup) then (result, true)
      else parse_lines giveup starcount result rest
  end.

Definition parse_output (self : Traceroute) (output : list string)
    : list hop * bool :=
  match cls self with
  | LinuxTraceroute => parse_lines (giveup self) 0 [] (tail output)
  | _ => parse_lines (giveup self) 0 [] output
  end.

(** The child process as [trace] sees it: the lines of its two pipes
    ([None] when the pipe is missing) and its exit status after [wait()]. *)
Record popen := {
  stdout : option (list string);
  stderr : option (list string);
  returncode : Z
}.

Definition trace_error_message (cmd : list string) (rc : Z)
    (err : list string) : string :=
  "command '" +:+ join " " cmd +:+ "' returned " +:+ str_int rc +:+
  ", stderr: " +:+ join "" err.

Definition trace (env : platform) (self : Traceroute) (child : popen)
    (host proto : string) : result (list hop) :=
  proto ← (if bool_decide (proto = "best")
           then _get_best env self (is_ipv6 env host)
           else Ok proto);
  let cmd :=
    if is_ipv6 env host then _ipv6_cmd self host proto
    else _ipv4_cmd self host proto in
  match stdout child, stderr child with
  | Some out, Some err =>
      let result := (parse_output self out).1 in
      if bool_decide (returncode child ∉ [0; -9; -15]) then
        Raise (TracerouteError (trace_error_message cmd (returncode child) err))
      else Ok result
  | _, _ =>
      Raise (TracerouteError
               "Error initializing traceroute: unable to pipe stdout or stderr")
  end.

(** The command line [trace] runs, as a function of its arguments. *)
Definition trace_cmd (env : platform) (self : Traceroute)
    (host proto : string) : list string :=
  if is_ipv6 env host then _ipv6_cmd self host proto
  else _ipv4_cmd self host proto.

(** [get_traceroute(system, **kwargs)] *)
Definition get_traceroute (env : platform) (giveup probe_timeout max_hops : Z)
    : Traceroute :=
  let implementation :=
    if bool_decide (system env = "Darwin") then BSDTraceroute
    else if bool_decide (system env = "OpenBSD") then BSDTraceroute
    else LinuxTraceroute in
  {| cls := implementation; giveup := giveup; max_hops := max_hops;
     pref := default_pref; probe_timeout := probe_timeout |}.

End Traceroute.

(** ** tracer/tracer.py *)

Module Tracer.
Import Py Traceroute.

Definition TRACE_INTERVAL : Z := 5.

(** The values found in a [dports] slot: [None] (never assigned), the tuple
    of port strings installed by the supervisor, or the list literal of the
    sentinel record. Python's [==] never equates a tuple with a list. *)
Inductive ports :=
| PortsNone
| PortsTuple (l : list string)
| PortsList (l : list string).

#[export] Instance ports_eq_dec : EqDecision ports.
Proof. solve_decision. Defined.

(** The values found in the [cnames] slot of a record. *)
Inductive cnames_slot :=
| CnamesInt (n : Z)
| CnamesList (l : list string).

#[export] Instance cnames_slot_eq_dec : EqDecision cnames_slot.
Proof. solve_decision. Defined.

(** The values found in the [traceback] slot: [None] as returned by
    [Tracer.traceback], or a list. *)
Inductive traceback_slot :=
| TracebackNone
| TracebackList (l : list string).

#[export] Instance traceback_slot_eq_dec : EqDecision traceback_slot.
Proof. solve_decision. Defined.

(** The namedtuple [Trace]. *)
Module Trace.
Record t := mk {
  start : Z;
  destination : string;
  change : bool;
  duration : Z;
  trace : list hop;
  traceback : traceback_slot;
  dports : ports;
  cnames : cnames_slot
}.
End Trace.

(** A [TracerouteTracer] object: the fields of [Tracer] and those added by
    the subclass (the task handle and the executor are left out). *)
Record Tracer := {
  destination : string;
  only_changes : bool;
  history : list Trace.t;
  proto : option string;
  running : bool;
  dports : ports;
  cnames : list string;
  cycle_protocols : option (list string);
  failcount : Z;
  backoff_until : option Z
}.

Definition set_history (h : list Trace.t) (self : Tracer) : Tracer :=
  {| destination := destination self; only_changes := only_changes self;
     history := h; proto := proto self; running := running self;
     dports := dports self; cnames := cnames self;
     cycle_protocols := cycle_protocols self; failcount := failcount self;
     backoff_until := backoff_until self |}.

Definition set_running (b : bool) (self : Tracer) : Tracer :=
  {| destination := destination self; only_changes := only_changes self;
     history := history self; proto := proto self; running := b;
     dports := dports self; cnames := cnames self;
     cycle_protocols := cycle_protocols self; failcount := failcount self;
     backoff_until := backoff_until self |}.

Definition set_dports (p : ports) (self : Tracer) : Tracer :=
  {| destination := destination self; only_changes := only_changes self;
     history := history self; proto := proto self; running := running self;
     dports := p; cnames := cnames self;
     cycle_protocols := cycle_protocols self; failcount := failcount self;
     backoff_until := backoff_until self |}.

Definition set_cnames (c : list string) (self : Tracer) : Tracer :=
  {| destination := destination self; only_changes := only_changes self;
     history := history self; proto := proto self; running := running self;
     dports := dports self; cnames := c;
     cycle_protocols := cycle_protocols self; failcount := failcount self;
     backoff_until := backoff_until self |}.

Definition set_cycle_protocols (q : option (list string)) (self : Tracer)
    : Tracer :=
  {| destination := destination self; only_changes := only_changes self;
     history := history self; proto := proto self; running := running self;
     dports := dports self; cnames := cnames self;
     cycle_protocols := q; failcount := failcount self;
     backoff_until := backoff_until self |}.

Definition set_failure (n : Z) (b : option Z) (self : Tracer) : Tracer :=
  {| destination := destination self; only_changes := only_changes self;
     history := history self; proto := proto self; running := running self;
     dports := dports self; cnames := cnames self;
     cycle_protocols := cycle_protocols self; failcount := n;
     backoff_until := b |}.

(** [TracerouteTracer(destination, only_changes=..., proto=...)] *)
Definition fresh (destination : string) (only_changes : bool)
    (proto : option string) : Tracer :=
  {| destination := destination; only_changes := only_changes;
     history := []; proto := proto; running := false;
     dports := PortsNone; cnames := [];
     cycle_protocols := None; failcount := 0; backoff_until := None |}.

Definition init (destination : string) (only_changes : bool)
    (proto : option string) : result Tracer :=
  if bool_decide (destination = "") then
    Raise (ValueError "Got empty destination")
  else Ok (fresh destination only_changes proto).

(** *** The body of [Tracer._loop] *)

(** Python truth value of a hop, as used by [any(tr)]. *)
Definition truthy (h : hop) : bool :=
  match h with
  | None => false
  | Some s => negb (bool_decide (s = ""))
  end.

Definition any (tr : list hop) : bool := existsb truthy tr.

(** The three [continue] guards at the head of the loop body. The test on
    [tr[-1]] is reached only when [any(tr)] holds, hence on a non-empty
    list. *)
Definition filtered (max_ttl : Z) (tr : list hop) : bool :=
  if negb (any tr) then true
  else if bool_decide (Z.of_nat (length tr) = max_ttl - 1) then true
  else if bool_decide (list.last tr = Some None) then true
  else false.

(** The [for oldhop, newhop in zip(last, tr)] loop. *)
Definition merged_trace (last tr : list hop) : list hop :=
  (λ '(oldhop, newhop),
     match newhop with
     | None => oldhop
     | Some _ => newhop
     end) <$> zip last tr.

(** The local variables of [_loop] that survive an iteration. *)
Record locals := {
  last : option (list hop);
  dports_last : ports
}.

Definition initial_locals : locals :=
  {| last := None; dports_last := PortsNone |}.

(** [tr] after the merge step. *)
Definition merge_step (loc : locals) (tr : list hop) : list hop :=
  match last loc with
  | Some l =>
      if bool_decide (length tr = length l) then merged_trace l tr else tr
  | None => tr
  end.

(** [change] as computed from the merged [tr]. *)
Definition change_of (self : Tracer) (loc : locals) (tr : list hop) : bool :=
  match last loc with
  | None => true
  | Some l =>
      if bool_decide (dports_last loc = PortsNone) then true
      else negb (bool_decide (tr = l) &&
                 bool_decide (dports_last loc = dports self))
  end.

Definition max_ttl : Z := 64.

(** One pass through the [try] block, given the two clock readings and the
    list returned by [one_trace]. *)
Definition loop_body (start : Z) (tr : list hop) (end_ : Z)
    (st : Tracer * locals) : Tracer * locals :=
  let '(self, loc) := st in
  if filtered max_ttl tr then (self, loc)
  else
    let tr := merge_step loc tr in
    let change := change_of self loc tr in
    let last' := if change then Some tr else last loc in
    let dports_last' := dports self in
    let self' :=
      if negb (only_changes self) || change then
        let traceback := TracebackNone in
        let trace :=
          Trace.mk start (destination self) change (end_ - start) tr
                   traceback (dports self) (CnamesInt 2) in
        set_history (history self ++ [trace]) self
      else self in
    (self', {| last := last'; dports_last := dports_last' |}).

(** What happens to a tracer while its loop runs: an iteration of the loop,
    or the supervisor assigning [tracer.dports] between two iterations. *)
Inductive event :=
| Iteration (start : Z) (tr : list hop) (end_ : Z)
| AssignDports (p : ports).

Definition step (st : Tracer * locals) (e : event) : Tracer * locals :=
  match e with
  | Iteration start tr end_ => loop_body start tr end_ st
  | AssignDports p => (set_dports p st.1, st.2)
  end.

Definition iterate (evs : list event) (self : Tracer) : Tracer * locals :=
  foldl step (self, initial_locals) evs.

(** The record appended once the [while] loop is left. *)
Definition sentinel (now : Z) (self : Tracer) : Trace.t :=
  Trace.mk now (destination self) true 0 [] (TracebackList [])
           (PortsList []) (CnamesList (cnames self)).

(** [_loop]: the iterations made while [running] holds, then the sentinel. *)
Definition _loop (evs : list event) (now : Z) (self : Tracer) : Tracer :=
  let self := (iterate evs self).1 in
  set_history (history self ++ [sentinel now self]) self.

(** *** [TracerouteTracer] *)

Definition cycle_protocol (env : platform) (traceroute : Traceroute)
    (pref : option (list string)) (self : Tracer) : Tracer * result string :=
  let pref := default ["icmp"; "udp"; "tcp"] pref in
  let queue :=
    match cycle_protocols self with
    | Some q => q
    | None =>
        let capabilities :=
          capabilities_for_host env traceroute (destination self) in
        cap_by_pref env pref capabilities
    end in
  match queue with
  | [] => (set_cycle_protocols (Some []) self, Raise IndexError)
  | proto :: rest =>
      (set_cycle_protocols (Some (rest ++ [proto])) self, Ok proto)
  end.

(** [n] successive selections, oldest first. *)
Fixpoint cycle_protocol_n (env : platform) (traceroute : Traceroute)
    (n : nat) (self : Tracer) : Tracer * list (result string) :=
  match n with
  | O => (self, [])
  | S n' =>
      let '(self, r) := cycle_protocol env traceroute None self in
      let '(self, rs) := cycle_protocol_n env traceroute n' self in
      (self, r :: rs)
  end.

(** [TracerouteTracer.one_trace]; [now] is the clock at the back-off test,
    [now'] the clock when the failure is accounted, [child] the process
    started by [traceroute.trace]. *)
Definition one_trace (env : platform) (now now' : Z) (child : popen)
    (probe_timeout max_ttl : Z) (proto : option string) (self : Tracer)
    : Tracer * result (list hop) :=
  if match backoff_until self with
     | Some b => bool_decide (now < b)
     | None => false
     end
  then (self, Ok [])
  else
    let traceroute := get_traceroute env 5 probe_timeout max_ttl in
    let '(self, chosen) :=
      match proto with
      | None => cycle_protocol env traceroute None self
      | Some p => (self, Ok p)
      end in
    match chosen with
    | Raise e => (self, Raise e)
    | Ok proto =>
        match
          match Traceroute.trace env traceroute child (destination self) proto with
          | Raise (TracerouteError _) => Ok []
          | r => r
          end
        with
        | Raise e => (self, Raise e)
        | Ok result =>
            if bool_decide (Some (destination self) ∉ result) then
              let failcount := failcount self + 1 in
              let backoff :=
                if bool_decide (failcount > 1)
                then Some (now' + TRACE_INTERVAL * failcount)
                else backoff_until self in
              (set_failure failcount backoff self, Ok result)
            else (set_failure 0 None self, Ok result)
        end
    end.

(** [astart] raises the running flag before entering [_loop]; [_stop]
    clears it, after which the loop leaves its [while] and appends the
    sentinel. *)
Definition start (self : Tracer) : Tracer := set_running true self.

Definition _stop (self : Tracer) : Tracer := set_running false self.

End Tracer.

(** ** reverse_query_lookup.py *)

Module ReverseQueryLookup.
Import Py.

Definition MAX_ITEMS : Z := 5000.

(** [resolve_dict] is an [OrderedDict]: the entries in insertion order,
    oldest first, with pairwise distinct keys. *)
Definition contains (ip : string) (d : list (string * list string)) : bool :=
  bool_decide (ip ∈ d.*1).

(** [del d[ip]] *)
Definition delitem (ip : string) (d : list (string * list string))
    : list (string * list string) :=
  filter (λ kv, kv.1 ≠ ip) d.

(** [d.popitem()]: with the default [last=True] the pair removed is the one
    at the end of the order; an empty dictionary raises [KeyError]. *)
Definition popitem (d : list (string * list string))
    : result (list (string * list string)) :=
  match d with
  | [] => Raise KeyError
  | _ => Ok (removelast d)
  end.

(** [d[ip] = names]: a present key keeps its position, a new key goes to
    the end. *)
Definition setitem (ip : string) (names : list string)
    (d : list (string * list string)) : list (string * list string) :=
  if contains ip d then
    (λ kv, if bool_decide (kv.1 = ip) then (ip, names) else kv) <$> d
  else d ++ [(ip, names)].

(** The body of the [for ip, names in reader] loop. *)
Definition reader_step (max_items : Z) (ip : string) (names : list string)
    (resolve_dict : list (string * list string))
    : result (list (string * list string)) :=
  let resolve_dict :=
    if contains ip resolve_dict then delitem ip resolve_dict
    else resolve_dict in
  resolve_dict ←
    (if bool_decide (Z.of_nat (length resolve_dict) >= max_items)
     then popitem resolve_dict
     else Ok resolve_dict);
  Ok (setitem ip names resolve_dict).

(** [reader] over the pairs the log parser yields while [running] is set. *)
Fixpoint reader (max_items : Z) (yields : list (string * list string))
    (resolve_dict : list (string * list string))
    : result (list (string * list string)) :=
  match yields with
  | [] => Ok resolve_dict
  | (ip, names) :: rest =>
      resolve_dict ← reader_step max_items ip names resolve_dict;
      reader max_items rest resolve_dict
  end.

(** [lookup(ip)] is [resolve_dict.get(ip, [])]. *)
Definition lookup (resolve_dict : list (string * list string)) (ip : string)
    : list string :=
  match list_find (λ kv, kv.1 = ip) resolve_dict with
  | Some (_, kv) => kv.2
  | None => []
  end.

End ReverseQueryLookup.

(** ** util/rpki.py *)

Module Rpki.

(** The Python values that reach [roa_valid] and the JSON values found
    under the keys ["asn"] and ["prefix"] of a VRP entry. *)
Inductive pyval :=
| PyNone
| PyInt (n : Z)
| PyStr (s : string).

#[export] Instance pyval_eq_dec : EqDecision pyval.
Proof. solve_decision. Defined.

(** [not v] *)
Definition falsy (v : pyval) : bool :=
  match v with
  | PyNone => true
  | PyInt n => bool_decide (n = 0)
  | PyStr s => bool_decide (s = "")
  end.

(** [str(v)] *)
Definition str (v : pyval) : string :=
  match v with
  | PyNone => "None"
  | PyInt n => pretty n
  | PyStr s => s
  end.

(** One element of [data['roas']]. *)
Record roa := {
  asn : pyval;
  prefix : pyval
}.

Record ROAChecker := {
  roas : list roa
}.

(** [valid_prefixes]: the VRPs as a list of pairs of strings. *)
Definition valid_prefixes (self : ROAChecker) : list (string * string) :=
  (λ r, (str (asn r), str (prefix r))) <$> roas self.

(** [(asn, prefix) in valid_prefixes]: the arguments are compared as they
    are with pairs of [str] values. *)
Definition roa_valid (self : ROAChecker) (asn prefix : pyval) : bool :=
  if falsy asn || bool_decide (asn = PyStr "*") then false
  else if falsy prefix || bool_decide (prefix = PyStr "*") then false
  else
    bool_decide ((asn, prefix) ∈
                 (λ vp : string * string, (PyStr vp.1, PyStr vp.2)) <$>
                 valid_prefixes self).

End Rpki.

(** ** node_info.py *)

Module NodeInfo.

(** The dictionary built by [get_info]. *)
Record hop_record := {
  asn : option string;
  hostname : option string;
  country : option string;
  cidr : option string;
  description : option string;
  domain : option string;
  dis : option string;
  roa : option string;
  ip : option string
}.

(** The two module-level dictionaries. *)
Record caches := {
  hop_cache : gmap string hop_record;
  hop_cache_expire : gmap Z (list string)
}.

Definition empty_caches : caches :=
  {| hop_cache := ∅; hop_cache_expire := ∅ |}.

Definition expired_hops (now : Z) (st : caches) : list string :=
  '(exp_time, hops) ← map_to_list (hop_cache_expire st);
  hop ← hops;
  if bool_decide (exp_time < now) then [hop] else [].

Definition expired_times (now : Z) (st : caches) : list Z :=
  filter (λ exp_time, exp_time < now) (map_to_list (hop_cache_expire st)).*1.

(** The expiry sweep at the head of [hop_info]. *)
Definition expire (now : Z) (st : caches) : caches :=
  {| hop_cache :=
       foldl (λ cache hop, delete hop cache) (hop_cache st)
             (remove_dups (expired_hops now st));
     hop_cache_expire :=
       foldl (λ index exp_time, delete exp_time index) (hop_cache_expire st)
             (expired_times now st) |}.

(** [hop_info] up to its [await]: the sweep, then [hop_cache.get(ip)]; a
    record is a non-empty dictionary, so a cached record is a hit. *)
Definition lookup_phase (now : Z) (ip : string) (st : caches)
    : caches * option hop_record :=
  let st := expire now st in
  (st, hop_cache st !! ip).

(** [hop_info] after its [await]: [result] is what [get_info] returned and
    [now] the clock read for the expiry key. *)
Definition store_phase (now cache_ttl : Z) (ip : string) (result : hop_record)
    (st : caches) : caches :=
  if bool_decide (asn result ≠ Some "*") && bool_decide (asn result ≠ Some "NA")
  then
    let key := now + cache_ttl in
    {| hop_cache := <[ip := result]> (hop_cache st);
       hop_cache_expire :=
         <[key := default [] (hop_cache_expire st !! key) ++ [ip]]>
           (hop_cache_expire st) |}
  else st.

(** A whole call that nothing interleaves with. *)
Definition hop_info (now now' cache_ttl : Z) (ip : string)
    (get_info : string → hop_record) (st : caches) : caches * hop_record :=
  match lookup_phase now ip st with
  | (st, Some result) => (st, result)
  | (st, None) =>
      let result := get_info ip in
      (store_phase now' cache_ttl ip result st, result)
  end.

(** Calls overlap at the [await]: the cache sees an interleaving of the two
    halves of the calls in flight. *)
Inductive event :=
| Lookup (now : Z) (ip : string)
| Store (now cache_ttl : Z) (ip : string) (result : hop_record).

Definition step (st : caches) (e : event) : caches :=
  match e with
  | Lookup now ip => (lookup_phase now ip st).1
  | Store now cache_ttl ip result => store_phase now cache_ttl ip result st
  end.

Definition run (evs : list event) : caches := foldl step empty_caches evs.

(** The expiry keys under which [ip] is listed. *)
Definition expiry_times (st : caches) (ip : string) : list Z :=
  (filter (λ kv : Z * list string, ip ∈ kv.2)
          (map_to_list (hop_cache_expire st))).*1.

End NodeInfo.

(** ** path_traceroute.py *)

Module PathTraceroute.
Import Py Tracer.

(** What [active_hosts_func] returns: a mapping from address to the tuple
    of its ports (entries in iteration order, keys pairwise distinct), or
    any other iterable of addresses. *)
Inductive hosts :=
| HostsMapping (items : list (string * list string))
| HostsIterable (addrs : list string).

(** [for addr in hosts], each address paired with [hosts[addr]] when
    [isinstance(hosts, Mapping)] holds. *)
Definition entries (h : hosts) : list (string * option (list string)) :=
  match h with
  | HostsMapping items => (λ kv, (kv.1, Some kv.2)) <$> items
  | HostsIterable addrs => (λ a, (a, None)) <$> addrs
  end.

(** [addr in hosts] *)
Definition hosts_contains (h : hosts) (addr : string) : bool :=
  bool_decide (addr ∈ (entries h).*1).

(** The tracer objects live in the list [active_tracers]; an object is
    identified by its position, and the loop variable [tracer] of the first
    [for] is [None] or the position of the object it is bound to. *)
Definition add_step (local_ip : string) (lookup : string → list string)
    (traceproto : option string) (active_destinations : list string)
    (st : list Tracer * option nat) (entry : string * option (list string))
    : result (list Tracer * option nat) :=
  let '(active_tracers, tracer) := st in
  let '(addr, ports) := entry in
  if bool_decide (addr = local_ip) then Ok st
  else if bool_decide (addr ∈ active_destinations) then
    match ports, tracer with
    | Some p, Some i =>
        Ok (alter (set_dports (PortsTuple p)) i active_tracers, tracer)
    | _, _ => Ok st
    end
  else
    fresh ← Tracer.init addr true traceproto;
    let fresh := set_cnames (lookup addr) fresh in
    let fresh :=
      match ports with
      | Some p => set_dports (PortsTuple p) fresh
      | None => fresh
      end in
    Ok (active_tracers ++ [start fresh], Some (length active_tracers)).

Fixpoint add_loop (local_ip : string) (lookup : string → list string)
    (traceproto : option string) (active_destinations : list string)
    (es : list (string * option (list string)))
    (st : list Tracer * option nat) : result (list Tracer * option nat) :=
  match es with
  | [] => Ok st
  | e :: es =>
      st ← add_step local_ip lookup traceproto active_destinations st e;
      add_loop local_ip lookup traceproto active_destinations es st
  end.

(** The second [for]: it walks [active_tracers] by position while removing
    from that same list, so the element following a removed one is
    skipped. [stop()] is seen here through the flag it clears; the
    sentinel is appended by the tracer's own task. *)
Fixpoint remove_loop (fuel : nat) (h : hosts) (i : nat)
    (active_tracers removed_tracers : list Tracer)
    : list Tracer * list Tracer :=
  match fuel with
  | O => (active_tracers, removed_tracers)
  | S fuel =>
      match active_tracers !! i with
      | None => (active_tracers, removed_tracers)
      | Some tracer =>
          if hosts_contains h (destination tracer) then
            remove_loop fuel h (S i) active_tracers removed_tracers
          else
            remove_loop fuel h (S i) (delete i active_tracers)
                        (removed_tracers ++ [_stop tracer])
      end
  end.

(** One pass through the [while running] body of [main_loop]: the new
    [active_tracers] and the [removed_tracers] handed to the publisher. *)
Definition tick (local_ip : string) (lookup : string → list string)
    (traceproto : option string) (_active_remote_hosts : hosts)
    (active_tracers : list Tracer) : result (list Tracer * list Tracer) :=
  let active_destinations := destination <$> active_tracers in
  st ← add_loop local_ip lookup traceproto active_destinations
                (entries _active_remote_hosts) (active_tracers, None);
  Ok (remove_loop (S (length st.1)) _active_remote_hosts 0 st.1 []).

End PathTraceroute.

(** ** websocket_server.py *)

Module WebsocketServer.
Import Py Tracer.

(** What [send_trace] is called with: the record and the [new] flag. *)
Definition frame : Type := Trace.t * bool.

(** [(trace_entry.start, trace_entry.destination)] *)
Definition trace_key (trace_entry : Trace.t) : Z * string :=
  (Trace.start trace_entry, Trace.destination trace_entry).

(** [all_processed_traces()]: the lists of every destination chained. Only
    membership in it and its length are ever used. *)
Definition all_processed_traces
    (processed_traces_by_destination : gmap string (list (Z * string)))
    : list (Z * string) :=
  mjoin (map_to_list processed_traces_by_destination).*2.

(** [processed.setdefault(host, []).append(trace_key)] *)
Definition record_key (host : string) (key : Z * string)
    (processed : gmap string (list (Z * string)))
    : gmap string (list (Z * string)) :=
  <[host := default [] (processed !! host) ++ [key]]> processed.

(** The body of the loop over [all_active_traces]. *)
Definition publish_step
    (st : gmap string (list (Z * string)) * list frame)
    (trace_entry : Trace.t) : gmap string (list (Z * string)) * list frame :=
  let '(processed, sent) := st in
  let host := Trace.destination trace_entry in
  if bool_decide (trace_key trace_entry ∈ all_processed_traces processed)
  then st
  else (record_key host (trace_key trace_entry) processed,
        sent ++ [(trace_entry, true)]).

(** The body of the loop over [removed_tracers]. *)
Definition remove_step
    (st : gmap string (list (Z * string)) * list frame)
    (tracer : Tracer) : result (gmap string (list (Z * string)) * list frame) :=
  let '(processed, sent) := st in
  if bool_decide (destination tracer ∈ dom processed) then
    match list.last (history tracer) with
    | None => Raise IndexError
    | Some closing =>
        Ok (delete (destination tracer) processed, sent ++ [(closing, false)])
    end
  else Ok st.

Fixpoint remove_all (removed_tracers : list Tracer)
    (st : gmap string (list (Z * string)) * list frame)
    : result (gmap string (list (Z * string)) * list frame) :=
  match removed_tracers with
  | [] => Ok st
  | tracer :: rest => st ← remove_step st tracer; remove_all rest st
  end.

(** [send_traces]: the publication map after the call and the frames sent
    during it. *)
Definition send_traces (active_tracers removed_tracers : list Tracer)
    (processed : gmap string (list (Z * string)))
    : result (gmap string (list (Z * string)) * list frame) :=
  let all_active_traces := mjoin (history <$> active_tracers) in
  remove_all removed_tracers
             (foldl publish_step (processed, []) all_active_traces).

(** The states of a connection's publication map: it starts empty and is
    changed only by the two writes of [send_traces]. *)
Inductive reachable : gmap string (list (Z * string)) → Prop :=
| reachable_empty : reachable ∅
| reachable_record processed trace_entry :
    reachable processed →
    trace_key trace_entry ∉ all_processed_traces processed →
    reachable (record_key (Trace.destination trace_entry)
                          (trace_key trace_entry) processed)
| reachable_delete processed d :
    reachable processed →
    d ∈ dom processed →
    reachable (delete d processed).

End WebsocketServer.


(** ** Predicates and concrete data used in the statements *)

Module Scenario.
Import Py Traceroute Tracer.

(** [R] relates every element of a list to its successor. *)
Definition consecutive {A} (R : A → A → Prop) (l : list A) : Prop :=
  ∀ i x y, l !! i = Some x → l !! S i = Some y → R x y.

(** How the flag of a record relates to the record before it. *)
Definition change_rel (P N : Trace.t) : Prop :=
  Trace.change N = true ↔
  Trace.trace N ≠ Trace.trace P ∨ Trace.dports N ≠ Trace.dports P ∨
  Trace.dports P = PortsNone.

(** What the loop maintains between its local variables and the history
    it appends to. *)
Definition loop_inv (st : Tracer * locals) : Prop :=
  consecutive change_rel (history st.1) ∧
  (∀ T, head (history st.1) = Some T → Trace.change T = true) ∧
  match last st.2 with
  | None => history st.1 = []
  | Some l =>
      ∃ T, list.last (history st.1) = Some T ∧ Trace.trace T = l ∧
           Trace.dports T = dports_last st.2
  end.

(** A two-hop path to a public resolver. *)
Definition path_a : list hop := [Some "10.0.0.1"; Some "8.8.8.8"].

(** A tracer as [tracer.py]'s own [main] makes it: nothing assigns its
    [dports]. *)
Definition tracer_unset : Tracer := fresh "8.8.8.8" true None.

(** A tracer as the supervisor makes it. *)
Definition tracer_443 : Tracer :=
  start (set_dports (PortsTuple ["443"])
           (set_cnames ["edge.example.net"; "www.example.com"]
              (fresh "8.8.8.8" true None))).

(** Number of occurrences of [c] in [l]. *)
Definition occurrences (c : string) (l : list string) : nat :=
  length (filter (λ p, p = c) l).

(** An unprivileged Linux host on which sets of strings happen to iterate
    in the order of [elements]. *)
Definition env_linux : platform :=
  {| system := "Linux"; IS_PRIVILEGED := false;
     is_ipv6 := λ host, bool_decide (host = "2001:4860:4860::8888");
     list_of_set := elements |}.

(** A child that printed a header and two hops, then exited normally. *)
Definition child_ok : popen :=
  {| stdout := Some ["traceroute to 8.8.8.8 (8.8.8.8), 64 hops max";
                     " 1  10.0.0.1  0.412 ms";
                     " 2  8.8.8.8  7.031 ms"];
     stderr := Some [];
     returncode := 0 |}.

(** A child that failed to resolve its target. *)
Definition child_failed : popen :=
  {| stdout := Some [];
     stderr := Some ["traceroute: unknown host"];
     returncode := 2 |}.

End Scenario.

Module StoreScenario.
Import Py ReverseQueryLookup.

(** The [i]-th address of the documentation prefix 2001:db8::/32. *)
Definition address (i : nat) : string := "2001:db8::" +:+ pretty i.

(** A log that resolves [n] distinct addresses one after the other. *)
Definition log (n : nat) : list (string * list string) :=
  (λ i, (address i, ["host.example.org"])) <$> seq 0 n.

(** The store is well formed and within its bound. *)
Definition bounded (max_items : Z) (d : list (string * list string)) : Prop :=
  NoDup d.*1 ∧ Z.of_nat (length d) ≤ max_items.

End StoreScenario.

Module CacheScenario.
Import NodeInfo Rpki.

(** Every cached address is listed under some expiry time. *)
Definition indexed (st : caches) : Prop :=
  ∀ ip r, hop_cache st !! ip = Some r →
          ∃ t hops, hop_cache_expire st !! t = Some hops ∧ ip ∈ hops.

(** What [get_info] returns for a public resolver. *)
Definition resolver_record : hop_record :=
  {| NodeInfo.asn := Some "15169"; hostname := Some "dns.google";
     country := Some "US"; cidr := Some "8.8.8.0/24";
     description := Some "GOOGLE, US"; domain := Some "dns.google";
     dis := None; NodeInfo.roa := Some "valid"; ip := Some "8.8.8.8" |}.

(** A VRP set with one entry, its origin given as a JSON number. *)
Definition checker : ROAChecker :=
  {| roas := [{| Rpki.asn := PyInt 13335; prefix := PyStr "1.1.1.0/24" |}] |}.

End CacheScenario.

Module FleetScenario.
Import Py Tracer PathTraceroute WebsocketServer Scenario.

(** The snapshot reports a second port on the destination already traced. *)
Definition snapshot_more_ports : hosts :=
  HostsMapping [("8.8.8.8", ["443"; "80"])].

(** The same, after a connection to a new destination was seen first. *)
Definition snapshot_new_host : hosts :=
  HostsMapping [("1.1.1.1", ["53"]); ("8.8.8.8", ["443"; "80"])].

(** Every key of the publication map sits under its own destination. *)
Definition own_destination (m : gmap string (list (Z * string))) : Prop :=
  ∀ d l k, m !! d = Some l → k ∈ l → k.2 = d.

End FleetScenario.


(** ** Predicates used in the further properties *)

Module Facts.
Import Py.

(** Some character of [s] is one [str.split()] cuts on. *)
Fixpoint has_space (s : string) : bool :=
  match s with
  | EmptyString => false
  | String a s' => is_space a || has_space s'
  end.

End Facts.

Module PublishScenario.
Import Py Tracer WebsocketServer Scenario.

(** A tracer that recorded one trace and then left its loop. *)
Definition stopped_tracer : Tracer := _loop [Iteration 0 path_a 1] 9 tracer_443.

(** The two keys of its history under its destination. *)
Definition published : gmap string (list (Z * string)) :=
  record_key "8.8.8.8" (9, "8.8.8.8") (record_key "8.8.8.8" (0, "8.8.8.8") ∅).

(** Its two records as frames of a first publication. *)
Definition first_frames : list frame :=
  [(Trace.mk 0 "8.8.8.8" true 1 path_a TracebackNone (PortsTuple ["443"])
      (CnamesInt 2), true);
   (sentinel 9 tracer_443, true)].

End PublishScenario.

(** ** node_info.py: [get_info] *)

Module GetInfo.
Import Rpki.

(** The four keys [get_info] reads from what [as_info] returns. *)
Record asn_info := {
  asn : option string;
  asn_country_code : option string;
  asn_cidr : option string;
  asn_description : option string
}.

(** [empty_dict]: a [defaultdict] that answers ["*"] for every key. *)
Definition empty_dict : asn_info :=
  {| asn := Some "*"; asn_country_code := Some "*"; asn_cidr := Some "*";
     asn_description := Some "*" |}.

(** What the libraries answer for an address: [ipaddress] on privacy,
    [ipwhois] on the registry ([None] when [IPWhois] rejects the address or
    [lookup_rdap] raises one of the exceptions [as_info] handles), and the
    results of [get_hostname], [get_domain] and [get_dis]. *)
Record services := {
  is_private : string → bool;
  lookup_rdap : string → option asn_info;
  get_hostname : string → option string;
  get_domain : string → option string;
  get_dis : string → option string
}.

(** [as_info(ip, empty)], with [try_whois] left at its default. *)
Definition as_info (env : services) (ip : string) (empty : bool) : asn_info :=
  if empty then empty_dict
  else
    match lookup_rdap env ip with
    | Some info => info
    | None => empty_dict
    end.

(** A string or [None] as a Python value. *)
Definition to_py (v : option string) : pyval :=
  match v with
  | Some s => PyStr s
  | None => PyNone
  end.

Definition get_info (env : services) (roa_checker : ROAChecker)
    (ip_address : string) : NodeInfo.hop_record :=
  let asn_info :=
    if negb (is_private env ip_address) then as_info env ip_address false
    else
      let asn_info := as_info env ip_address true in
      {| asn := Some "private_ip";
         asn_country_code := asn_country_code asn_info;
         asn_cidr := asn_cidr asn_info;
         asn_description := Some "RFC1918/RFC4193" |} in
  {| NodeInfo.asn := asn asn_info;
     NodeInfo.hostname := get_hostname env ip_address;
     NodeInfo.country := asn_country_code asn_info;
     NodeInfo.cidr := asn_cidr asn_info;
     NodeInfo.description := asn_description asn_info;
     NodeInfo.domain := get_domain env ip_address;
     NodeInfo.dis := get_dis env ip_address;
     NodeInfo.roa :=
       Some (if roa_valid roa_checker (to_py (asn asn_info))
                          (to_py (asn_cidr asn_info))
             then "valid" else "invalid");
     NodeInfo.ip := Some ip_address |}.

(** Services that know one private and one public address. *)
Definition sample_services : services :=
  {| is_private := λ ip, bool_decide (ip = "10.0.0.1");
     lookup_rdap := λ ip,
       if bool_decide (ip = "1.1.1.1")
       then Some {| asn := Some "13335"; asn_country_code := Some "US";
                    asn_cidr := Some "1.1.1.0/24";
                    asn_description := Some "CLOUDFLARENET, US" |}
       else None;
     get_hostname := λ ip, Some ip;
     get_domain := λ ip, Some ip;
     get_dis := λ _, None |}.

(** A VRP set that covers the public address. *)
Definition sample_checker : ROAChecker :=
  {| roas := [{| Rpki.asn := PyInt 13335; prefix := PyStr "1.1.1.0/24" |}] |}.

End GetInfo.

(** ** netstat.py: [active_remote_hosts] *)

Module Netstat.

Definition IGNORE_PREFIXES : list string := ["fe80:"; "::ffff"].
Definition IGNORE_HOSTS : list string := ["127.0.0.1"; "::1"].

(** [k.startswith(IGNORE_PREFIXES)] *)
Definition startswith (prefixes : list string) (k : string) : bool :=
  existsb (λ p, String.prefix p k) prefixes.

(** What the call returns: the filtered mapping, or the assertion on its
    keys fails. *)
Inductive outcome :=
| Hosts (remote_hosts : list (string * list string))
| AssertionError.

(** [active_remote_hosts(ipv4_only)]: [current] is what
    [current_connections] returned ([None] when it raised
    [ConnectionListException]), [netstat] what [netstat_connections]
    returns, [is_valid_ip_address] the check of [util]. *)
Definition active_remote_hosts
    (is_valid_ip_address : string → option Z → bool) (ipv4_only : bool)
    (current : option (list (string * list string)))
    (netstat : list (string * list string)) : outcome :=
  let remote_hosts :=
    match current with
    | Some remote_hosts => remote_hosts
    | None => netstat
    end in
  let remote_hosts :=
    filter (λ kv : string * list string,
              (kv.1 ∉ IGNORE_HOSTS) ∧ startswith IGNORE_PREFIXES kv.1 = false)
           remote_hosts in
  let version := if ipv4_only then Some 4 else None in
  if forallb (λ kv : string * list string, is_valid_ip_address kv.1 version)
             remote_hosts
  then Hosts remote_hosts
  else AssertionError.

End Netstat.
(** * Properties *)

(** ** The tracer loop *)

Section TracerLoop.
Import Py Traceroute Tracer Scenario.

Lemma merged_trace_length (P N : list hop) :
  length N = length P → length (merged_trace P N) = length N.
Proof.
  intros Hlen. unfold merged_trace.
  rewrite length_fmap, length_zip_with. lia.
Qed.

Lemma merged_trace_lookup (P N : list hop) (i : nat) (h : hop) :
  length N = length P →
  N !! i = Some h →
  merged_trace P N !! i = if h is Some _ then Some h else P !! i.
Proof.
  revert N i. induction P as [|p P IH]; intros [|n N] i Hlen HN;
    simplify_eq/=.
  destruct i as [|i]; simplify_eq/=.
  - by destruct h.
  - by apply IH.
Qed.

(** The scenario of a single lost probe. *)
Example merged_trace_packet_loss :
  merged_trace [Some "a"; Some "b"; Some "c"; Some "8.8.8.8"]
               [Some "a"; None; Some "c"; Some "8.8.8.8"]
  = [Some "a"; Some "b"; Some "c"; Some "8.8.8.8"].
Proof. reflexivity. Qed.

(** C2. When the loop holds a previous accepted trace [P] and [one_trace]
    returns an unfiltered [N] of the same length, the iteration works on a
    merged trace [M]: [M] is what the loop remembers as the last accepted
    hops, it is the hop list of the record the iteration appends (if it
    appends one), and position by position [M] takes the hop of [N] unless
    it is missing, in which case it takes the hop of [P]. *)
Theorem merge_law (self : Tracer) (loc : locals) (start end_ : Z)
    (P N : list hop) :
  last loc = Some P →
  length N = length P →
  filtered max_ttl N = false →
  ∃ M : list hop,
    M = merge_step loc N ∧
    last (loop_body start N end_ (self, loc)).2 = Some M ∧
    (history (loop_body start N end_ (self, loc)).1 = history self ∨
     ∃ T, history (loop_body start N end_ (self, loc)).1 = history self ++ [T]
          ∧ Trace.trace T = M) ∧
    length M = length N ∧
    ∀ i h, N !! i = Some h →
           M !! i = if h is Some _ then Some h else P !! i.
Proof.
  intros HP Hlen Hf. exists (merged_trace P N).
  assert (Hm : merge_step loc N = merged_trace P N).
  { unfold merge_step. rewrite HP. by rewrite bool_decide_true. }
  split; [done|]. unfold loop_body. rewrite Hf, Hm.
  split; [|split; [|split]].
  - unfold change_of. rewrite HP. simpl.
    destruct (bool_decide (dports_last loc = PortsNone)); [done|].
    destruct (bool_decide (merged_trace P N = P)) eqn:Heq; simpl.
    + apply bool_decide_eq_true in Heq.
      destruct (bool_decide (dports_last loc = dports self)); simpl;
        congruence.
    + done.
  - destruct (negb (only_changes self) || change_of self loc (merged_trace P N));
      simpl; [right|by left].
    eexists. split; [done|]. done.
  - by apply merged_trace_length.
  - intros i h Hi. by apply merged_trace_lookup.
Qed.

Lemma merge_law_witness :
  last {| last := Some [Some "a"; Some "b"; Some "8.8.8.8"];
          dports_last := PortsTuple ["443"] |}
    = Some [Some "a"; Some "b"; Some "8.8.8.8"] ∧
  length [Some "a"; None; Some "8.8.8.8"]
    = length [Some "a"; Some "b"; Some "8.8.8.8"] ∧
  filtered max_ttl [Some "a"; None; Some "8.8.8.8"] = false ∧
  ∃ M : list hop,
    M = [Some "a"; Some "b"; Some "8.8.8.8"] ∧
    ∀ i h, [Some "a"; None; Some "8.8.8.8"] !! i = Some h →
           M !! i = if h is Some _ then Some h
                    else [Some "a"; Some "b"; Some "8.8.8.8"] !! i.
Proof.
  split; [reflexivity|]. split; [reflexivity|]. split; [reflexivity|].
  destruct (merge_law tracer_443
              {| last := Some [Some "a"; Some "b"; Some "8.8.8.8"];
                 dports_last := PortsTuple ["443"] |}
              0 1 [Some "a"; Some "b"; Some "8.8.8.8"]
              [Some "a"; None; Some "8.8.8.8"]
              eq_refl eq_refl eq_refl) as (M & HM & _ & _ & _ & Hlaw).
  exists M. split; [exact HM | exact Hlaw].
Defined.

(** *** Change detection *)

Lemma consecutive_snoc {A} (R : A → A → Prop) (l : list A) (y : A) :
  consecutive R l →
  (∀ x, list.last l = Some x → R x y) →
  consecutive R (l ++ [y]).
Proof.
  intros Hl Hy i a b Ha Hb.
  destruct (decide (S i < length l)%nat) as [Hlt|Hge].
  - rewrite lookup_app_l in Ha by lia. rewrite lookup_app_l in Hb by lia.
    by eapply Hl.
  - apply lookup_lt_Some in Hb as Hb'. rewrite length_app in Hb'. simpl in Hb'.
    assert (S i = length l) as Hi by lia.
    rewrite lookup_app_r in Hb by lia.
    rewrite Hi, Nat.sub_diag in Hb. simplify_eq/=.
    rewrite lookup_app_l in Ha by lia.
    apply Hy. rewrite last_lookup. by rewrite <- Hi.
Qed.

Lemma loop_inv_initial (self : Tracer) :
  history self = [] → loop_inv (self, initial_locals).
Proof.
  intros H. unfold loop_inv. simpl. rewrite H.
  split; [|done]. intros i x y Hx. by rewrite lookup_nil in Hx.
Qed.

Lemma head_snoc_nonempty {A} (l : list A) (y x : A) :
  list.last l = Some x → head (l ++ [y]) = head l.
Proof. destruct l; [done|]. done. Qed.

Lemma loop_inv_body (start end_ : Z) (tr : list hop) (st : Tracer * locals) :
  loop_inv st → loop_inv (loop_body start tr end_ st).
Proof.
  destruct st as [self loc]. intros (Hcons & Hhead & Hlink).
  unfold loop_body. destruct (filtered max_ttl tr); [done|].
  set (m := merge_step loc tr). simpl in Hcons, Hhead, Hlink.
  unfold change_of. destruct (last loc) as [l|] eqn:Hlast.
  - destruct Hlink as (Tp & HTp & Htr & Hdp).
    destruct (bool_decide (dports_last loc = PortsNone)) eqn:Hnone.
    + apply bool_decide_eq_true in Hnone.
      rewrite orb_true_r. unfold loop_inv. simpl. split; [|split].
      * apply consecutive_snoc; [done|]. intros x Hx. simplify_eq.
        unfold change_rel. simpl. split; [|done]. intros _.
        right; right. congruence.
      * intros T. erewrite head_snoc_nonempty by done. apply Hhead.
      * eexists. rewrite last_snoc. done.
    + apply bool_decide_eq_false in Hnone.
      destruct (bool_decide (m = l)) eqn:Hm;
        [destruct (bool_decide (dports_last loc = dports self)) eqn:Hd|];
        simpl.
      * apply bool_decide_eq_true in Hm, Hd.
        destruct (only_changes self); simpl; unfold loop_inv; simpl.
        -- split; [done|]. split; [done|].
           exists Tp. split; [done|]. split; congruence.
        -- split; [|split].
           ++ apply consecutive_snoc; [done|]. intros x Hx. simplify_eq.
              unfold change_rel. simpl. split; [done|].
              intros [?|[?|?]]; congruence.
           ++ intros T. erewrite head_snoc_nonempty by done. apply Hhead.
           ++ eexists. rewrite last_snoc.
              split; [done|]. split; simpl; congruence.
      * apply bool_decide_eq_false in Hd. rewrite orb_true_r.
        unfold loop_inv. simpl. split; [|split].
        -- apply consecutive_snoc; [done|]. intros x Hx. simplify_eq.
           unfold change_rel. simpl. split; [|done]. intros _.
           right; left. congruence.
        -- intros T. erewrite head_snoc_nonempty by done. apply Hhead.
        -- eexists. rewrite last_snoc. done.
      * apply bool_decide_eq_false in Hm. rewrite orb_true_r.
        unfold loop_inv. simpl. split; [|split].
        -- apply consecutive_snoc; [done|]. intros x Hx. simplify_eq.
           unfold change_rel. simpl. split; [|done]. intros _.
           left. congruence.
        -- intros T. erewrite head_snoc_nonempty by done. apply Hhead.
        -- eexists. rewrite last_snoc. done.
  - rewrite orb_true_r. unfold loop_inv. simpl. rewrite Hlink. simpl.
    split; [|split].
    + intros i x y Hx Hy. destruct i; done.
    + intros T HT. by simplify_eq.
    + eexists. done.
Qed.

Lemma loop_inv_step (st : Tracer * locals) (e : event) :
  loop_inv st → loop_inv (step st e).
Proof.
  destruct e as [start tr end_|p]; simpl.
  - apply loop_inv_body.
  - destruct st as [self loc]. done.
Qed.

Lemma loop_inv_foldl (evs : list event) (st : Tracer * locals) :
  loop_inv st → loop_inv (foldl step st evs).
Proof.
  revert st. induction evs as [|e evs IH]; intros st Hst; simpl; [done|].
  apply IH. by apply loop_inv_step.
Qed.

(** The flag an accepted iteration computes, against the hops and dports
    the loop remembers. *)
Lemma change_of_spec (self : Tracer) (loc : locals) (tr l : list hop) :
  last loc = Some l →
  change_of self loc tr = true ↔
  tr ≠ l ∨ dports self ≠ dports_last loc ∨ dports_last loc = PortsNone.
Proof.
  intros Hl. unfold change_of. rewrite Hl.
  destruct (decide (dports_last loc = PortsNone)) as [Hn|Hn].
  - rewrite bool_decide_true by done. split; [tauto|done].
  - rewrite bool_decide_false by done.
    destruct (decide (tr = l)) as [Ht|Ht];
      [destruct (decide (dports_last loc = dports self)) as [Hd|Hd]|].
    + rewrite !bool_decide_true by done. simpl. split; [done|].
      intros [?|[?|?]]; congruence.
    + rewrite bool_decide_true, bool_decide_false by done. simpl.
      split; [|done]. intros _. right; left. congruence.
    + rewrite (bool_decide_false (tr = l)) by done. simpl. split; [|done].
      intros _. by left.
Qed.

(** After an accepted iteration the loop remembers that iteration's hops
    and dports, whether or not a record was appended for it. *)
Lemma loop_body_remembers (start end_ : Z) (tr : list hop) (self : Tracer)
    (loc : locals) :
  filtered max_ttl tr = false →
  last (loop_body start tr end_ (self, loc)).2 = Some (merge_step loc tr) ∧
  dports_last (loop_body start tr end_ (self, loc)).2 = dports self.
Proof.
  intros Hf. unfold loop_body. rewrite Hf. simpl. split; [|done].
  destruct (change_of self loc (merge_step loc tr)) eqn:Hc; [done|].
  unfold change_of in Hc. destruct (last loc) as [l|]; [|done].
  destruct (bool_decide (dports_last loc = PortsNone)); [done|].
  destruct (bool_decide (merge_step loc tr = l)) eqn:Heq; [|done].
  apply bool_decide_eq_true in Heq. by rewrite Heq.
Qed.

(** C1 (amended). In the history a tracer builds from scratch, the first
    record has [change = true], and for two records that follow each other
    the later one has [change = true] exactly when its hops differ from the
    earlier one's, or its dports differ from the earlier one's, or the
    earlier one's dports is [None]. *)
Theorem change_flag (self : Tracer) (evs : list event) :
  history self = [] →
  (∀ T, head (history (iterate evs self).1) = Some T →
        Trace.change T = true) ∧
  (∀ i P N,
     history (iterate evs self).1 !! i = Some P →
     history (iterate evs self).1 !! S i = Some N →
     (Trace.change N = true ↔
      Trace.trace N ≠ Trace.trace P ∨ Trace.dports N ≠ Trace.dports P ∨
      Trace.dports P = PortsNone)).
Proof.
  intros H0.
  destruct (loop_inv_foldl evs (self, initial_locals)
              (loop_inv_initial self H0)) as (Hcons & Hhead & _).
  split; [exact Hhead|]. intros i P N HP HN. exact (Hcons i P N HP HN).
Qed.

Lemma change_flag_witness :
  history tracer_443 = [] ∧
  (∀ T, head (history (iterate [Iteration 0 path_a 1; Iteration 5 path_a 6]
                               tracer_443).1) = Some T →
        Trace.change T = true).
Proof.
  split; [reflexivity|].
  exact (proj1 (change_flag tracer_443
                  [Iteration 0 path_a 1; Iteration 5 path_a 6] eq_refl)).
Defined.

(** C1 as stated fails when nothing ever assigned the tracer's dports:
    two identical accepted traces in a row, both with dports [None], and
    the second is still flagged as a change. *)
Lemma change_flag_counterexample :
  ∃ P N,
    history (iterate [Iteration 0 path_a 1; Iteration 5 path_a 6]
                     tracer_unset).1 = [P; N] ∧
    ¬ (Trace.change N = true ↔
       Trace.trace N ≠ Trace.trace P ∨ Trace.dports N ≠ Trace.dports P).
Proof.
  eexists _, _. split; [reflexivity|]. simpl.
  intros [Hfwd _]. destruct (Hfwd eq_refl) as [H|H]; by apply H.
Qed.

(** *** The sentinel *)

Lemma filtered_nonempty (tr : list hop) :
  filtered max_ttl tr = false → tr ≠ [].
Proof. by intros H ->. Qed.

Lemma merge_step_length (loc : locals) (tr : list hop) :
  length (merge_step loc tr) = length tr.
Proof.
  unfold merge_step. destruct (last loc) as [l|]; [|done].
  case_bool_decide; [|done]. by apply merged_trace_length.
Qed.

Lemma loop_body_hops (start end_ : Z) (tr : list hop) (st : Tracer * locals) :
  Forall (λ T, Trace.trace T ≠ []) (history st.1) →
  Forall (λ T, Trace.trace T ≠ []) (history (loop_body start tr end_ st).1).
Proof.
  destruct st as [self loc]. simpl. intros H. unfold loop_body.
  destruct (filtered max_ttl tr) eqn:Hf; [done|].
  destruct (negb (only_changes self) || _); simpl; [|done].
  apply Forall_app. split; [done|]. apply Forall_singleton. simpl.
  intros Hnil. apply (filtered_nonempty tr Hf).
  apply nil_length_inv. by rewrite <- (merge_step_length loc), Hnil.
Qed.

Lemma iterate_hops (evs : list event) (self : Tracer) :
  history self = [] →
  Forall (λ T, Trace.trace T ≠ []) (history (iterate evs self).1).
Proof.
  intros H0. unfold iterate.
  assert (H : Forall (λ T, Trace.trace T ≠ [])
                (history (self, initial_locals).1)).
  { simpl. rewrite H0. constructor. }
  revert H. generalize (self, initial_locals).
  induction evs as [|e evs IH]; intros st Hst; simpl; [done|].
  apply IH. destruct e as [start tr end_|p]; simpl.
  - by apply loop_body_hops.
  - by destruct st.
Qed.

(** The record appended when the loop is left fits the same pattern: it
    is flagged as a change and its empty hop list differs from the hops of
    the record before it. *)
Lemma change_flag_sentinel (self : Tracer) (evs : list event) (now : Z) :
  history self = [] →
  consecutive change_rel (history (_loop evs now self)).
Proof.
  intros H0. unfold _loop. simpl. apply consecutive_snoc.
  - destruct (loop_inv_foldl evs (self, initial_locals)
                (loop_inv_initial self H0)) as (Hcons & _ & _).
    exact Hcons.
  - intros P HP. unfold change_rel, sentinel. simpl. split; [|done].
    intros _. left. intros Heq.
    pose proof (iterate_hops evs self H0) as Hall.
    rewrite Forall_forall in Hall. apply (Hall P); [|done].
    rewrite last_lookup in HP. by eapply list_elem_of_lookup_2.
Qed.

(** The scenarios of a steady path, a changed path and a lost probe, for a
    tracer that records changes only. *)
Example steady_path_one_record :
  length (history (iterate [Iteration 0 path_a 1; Iteration 5 path_a 6;
                            Iteration 10 path_a 11] tracer_443).1) = 1%nat.
Proof. reflexivity. Qed.

Example path_change_two_records :
  Trace.change <$>
    history (iterate [Iteration 0 [Some "10.0.0.1"; Some "10.0.0.2";
                                   Some "8.8.8.8"] 1;
                      Iteration 5 [Some "10.0.0.1"; Some "10.0.0.9";
                                   Some "8.8.8.8"] 6] tracer_443).1
  = [true; true].
Proof. reflexivity. Qed.

Example packet_loss_no_record :
  Trace.trace <$>
    history (iterate [Iteration 0 [Some "a"; Some "b"; Some "c";
                                   Some "8.8.8.8"] 1;
                      Iteration 5 [Some "a"; None; Some "c";
                                   Some "8.8.8.8"] 6] tracer_443).1
  = [[Some "a"; Some "b"; Some "c"; Some "8.8.8.8"]].
Proof. reflexivity. Qed.

(** *** The [cnames] slot *)

Lemma loop_body_appends (start end_ : Z) (tr : list hop)
    (st : Tracer * locals) :
  history (loop_body start tr end_ st).1 = history st.1 ∨
  ∃ T, history (loop_body start tr end_ st).1 = history st.1 ++ [T] ∧
       Trace.cnames T = CnamesInt 2.
Proof.
  destruct st as [self loc]. unfold loop_body.
  destruct (filtered max_ttl tr); [by left|].
  destruct (negb (only_changes self) || _); simpl; [right|by left].
  eexists. done.
Qed.

(** C3 at a concrete tracer whose CNAME chain is known: the record the
    loop appends holds the integer 2 in its [cnames] slot, not the chain;
    only the sentinel holds the chain. *)
Theorem loop_record_cnames :
  ∃ T S,
    history (_loop [Iteration 0 path_a 1] 9 tracer_443) = [T; S] ∧
    cnames tracer_443 = ["edge.example.net"; "www.example.com"] ∧
    Trace.cnames T = CnamesInt 2 ∧
    Trace.cnames T ≠ CnamesList (cnames tracer_443) ∧
    Trace.cnames S = CnamesList (cnames tracer_443).
Proof. eexists _, _. repeat split; done. Qed.

End TracerLoop.

(** ** Protocol selection and the traceroute driver *)

Section ProtocolCycle.
Import Py Traceroute Tracer Scenario.

Lemma occurrences_app (c : string) (l k : list string) :
  occurrences c (l ++ k) = (occurrences c l + occurrences c k)%nat.
Proof. unfold occurrences. by rewrite filter_app, length_app. Qed.

Lemma occurrences_not_elem (c : string) (l : list string) :
  c ∉ l → occurrences c l = 0%nat.
Proof.
  unfold occurrences. induction l as [|x l IH]; intros Hc; [done|].
  rewrite not_elem_of_cons in Hc. destruct Hc as [Hx Hl].
  rewrite filter_cons_False by congruence. by apply IH.
Qed.

Lemma occurrences_NoDup (c : string) (l : list string) :
  NoDup l → c ∈ l → occurrences c l = 1%nat.
Proof.
  induction 1 as [|x l Hx Hnd IH]; intros Hc; [by apply elem_of_nil in Hc|].
  unfold occurrences. destruct (decide (x = c)) as [->|Hne].
  - rewrite filter_cons_True by done. simpl. f_equal.
    by apply occurrences_not_elem.
  - rewrite filter_cons_False by done. apply IH.
    apply elem_of_cons in Hc as [?|?]; [congruence|done].
Qed.

Lemma occurrences_Permutation (c : string) (l k : list string) :
  l ≡ₚ k → occurrences c l = occurrences c k.
Proof. intros H. unfold occurrences. by rewrite H. Qed.

Lemma occurrences_elements (c : string) (s : gset string) :
  occurrences c (elements s) = if decide (c ∈ s) then 1%nat else 0%nat.
Proof.
  destruct (decide (c ∈ s)) as [Hc|Hc].
  - apply occurrences_NoDup; [apply NoDup_elements|]. by apply elem_of_elements.
  - apply occurrences_not_elem. by rewrite elem_of_elements.
Qed.

Lemma occurrences_filter_pref (c : string) (s : gset string) :
  occurrences c (filter (λ proto, proto ∈ s) ["icmp"; "udp"; "tcp"]) =
  if decide (c ∈ s ∧ c ∈ ["icmp"; "udp"; "tcp"]) then 1%nat else 0%nat.
Proof.
  destruct (decide (c ∈ s ∧ c ∈ ["icmp"; "udp"; "tcp"])) as [[Hs Hp]|Hn].
  - apply occurrences_NoDup.
    + apply NoDup_filter, (bool_decide_unpack _). by vm_compute.
    + by apply list_elem_of_filter.
  - apply occurrences_not_elem. rewrite list_elem_of_filter. tauto.
Qed.

(** Every capability set of the matrix offers ICMP or UDP. *)
Lemma capabilities_inhabited (env : platform) (c : implementation)
    (ipv6 privileged : bool) :
  "icmp" ∈ capabilities env c ipv6 privileged ∨
  "udp" ∈ capabilities env c ipv6 privileged.
Proof.
  unfold capabilities.
  destruct c, ipv6, (privileged || IS_PRIVILEGED env); simpl; set_solver.
Qed.

Lemma cycle_protocol_head (env : platform) (traceroute : Traceroute)
    (self : Tracer) (p : string) (rest : list string) :
  cycle_protocols self = Some (p :: rest) →
  cycle_protocol env traceroute None self =
    (set_cycle_protocols (Some (rest ++ [p])) self, Ok p).
Proof. intros H. unfold cycle_protocol. by rewrite H. Qed.

Lemma cycle_protocol_n_prefix (env : platform) (traceroute : Traceroute)
    (a b : list string) (self : Tracer) :
  cycle_protocols self = Some (a ++ b) →
  (cycle_protocol_n env traceroute (length a) self).2 = Ok <$> a ∧
  cycle_protocols (cycle_protocol_n env traceroute (length a) self).1
    = Some (b ++ a).
Proof.
  revert b self. induction a as [|x a IH]; intros b self Hq; simpl.
  - by rewrite app_nil_r.
  - simpl in Hq. rewrite (cycle_protocol_head _ _ _ _ _ Hq).
    destruct (IH (b ++ [x]) (set_cycle_protocols (Some ((a ++ b) ++ [x])) self))
      as [Hr Hc].
    { simpl. by rewrite <- app_assoc. }
    destruct (cycle_protocol_n env traceroute (length a) _) as [self' rs].
    simpl in *. split; [by rewrite Hr|]. by rewrite Hc, <- app_assoc.
Qed.

(** C8 (amended). On its first selection a tracer fills its cycle with the
    preferred protocols icmp, udp, tcp that the destination supports, in
    that order, followed by every capability of the destination; a
    supported preferred protocol is therefore queued twice, any other
    capability once, and nothing else is queued. Every selection returns
    the head of the queue and moves it to the back, so a round of as many
    selections as the queue is long returns its entries in order and
    leaves the queue as it was. *)
Theorem cycle_protocol_queue (env : platform) (traceroute : Traceroute)
    (self : Tracer) :
  cycle_protocols self = None →
  list_of_set env (capabilities_for_host env traceroute (destination self))
    ≡ₚ elements (capabilities_for_host env traceroute (destination self)) →
  let caps := capabilities_for_host env traceroute (destination self) in
  let queue :=
    filter (λ proto, proto ∈ caps) ["icmp"; "udp"; "tcp"] ++
    list_of_set env caps in
  (∀ c, occurrences c queue =
        if decide (c ∈ caps)
        then (if decide (c ∈ ["icmp"; "udp"; "tcp"]) then 2 else 1)
        else 0)%nat ∧
  (∃ p rest,
     queue = p :: rest ∧
     cycle_protocol env traceroute None self =
       (set_cycle_protocols (Some (rest ++ [p])) self, Ok p)) ∧
  (∀ self' p rest,
     cycle_protocols self' = Some (p :: rest) →
     cycle_protocol env traceroute None self' =
       (set_cycle_protocols (Some (rest ++ [p])) self', Ok p)) ∧
  (∀ self' q,
     cycle_protocols self' = Some q →
     (cycle_protocol_n env traceroute (length q) self').2 = Ok <$> q ∧
     cycle_protocols (cycle_protocol_n env traceroute (length q) self').1
       = Some q).
Proof.
  intros Hnone Hperm caps queue. split; [|split; [|split]].
  - intros c. unfold queue. rewrite occurrences_app.
    rewrite (occurrences_Permutation _ _ _ Hperm).
    fold caps. rewrite occurrences_filter_pref, occurrences_elements.
    destruct (decide (c ∈ caps)) as [Hc|Hc].
    + destruct (decide (c ∈ ["icmp"; "udp"; "tcp"])) as [Hp|Hp].
      * by rewrite decide_True by done.
      * by rewrite decide_False by tauto.
    + by rewrite decide_False by tauto.
  - assert (∃ x, x ∈ list_of_set env caps) as [x Hx].
    { destruct (capabilities_inhabited env (cls traceroute)
                  (is_ipv6 env (destination self)) (IS_PRIVILEGED env))
        as [H|H]; eexists; unfold caps; rewrite Hperm;
        apply elem_of_elements, H. }
    destruct queue as [|p rest] eqn:Hq.
    + exfalso. apply app_eq_nil in Hq as [_ Hq]. rewrite Hq in Hx.
      by apply elem_of_nil in Hx.
    + exists p, rest. split; [done|].
      unfold cycle_protocol. rewrite Hnone. simpl.
      unfold cap_by_pref. fold caps. fold queue in Hq.
      unfold queue in Hq. by rewrite Hq.
  - intros self' p rest. apply cycle_protocol_head.
  - intros self' q Hq.
    destruct (cycle_protocol_n_prefix env traceroute q [] self') as [Hr Hc].
    { by rewrite app_nil_r. }
    by split.
Qed.

Lemma cycle_protocol_queue_witness :
  cycle_protocols tracer_443 = None ∧
  list_of_set env_linux
    (capabilities_for_host env_linux (get_traceroute env_linux 5 3 64)
       (destination tracer_443))
  ≡ₚ elements
    (capabilities_for_host env_linux (get_traceroute env_linux 5 3 64)
       (destination tracer_443)) ∧
  ∀ self' p rest,
    cycle_protocols self' = Some (p :: rest) →
    cycle_protocol env_linux (get_traceroute env_linux 5 3 64) None self' =
      (set_cycle_protocols (Some (rest ++ [p])) self', Ok p).
Proof.
  split; [reflexivity|]. split; [reflexivity|].
  exact (proj1 (proj2 (proj2
           (cycle_protocol_queue env_linux (get_traceroute env_linux 5 3 64)
              tracer_443 eq_refl (reflexivity _))))).
Defined.

(** C8 as stated fails on an unprivileged Linux host: the only capability
    is udp, and the cycle holds it twice. *)
Lemma cycle_protocol_counterexample :
  capabilities_for_host env_linux (get_traceroute env_linux 5 3 64)
    (destination tracer_443) = {[ "udp" ]} ∧
  cycle_protocols
    (cycle_protocol env_linux (get_traceroute env_linux 5 3 64) None
       tracer_443).1 = Some ["udp"; "udp"] ∧
  ¬ NoDup ["udp"; "udp"].
Proof.
  split; [reflexivity|]. split.
  - unfold cycle_protocol, cap_by_pref. simpl.
    change (capabilities_for_host env_linux (get_traceroute env_linux 5 3 64)
              "8.8.8.8") with ({[ "udp" ]} : gset string).
    rewrite elements_singleton. reflexivity.
  - intros H. apply NoDup_cons in H as [H _]. apply H. by left.
Qed.

End ProtocolCycle.

Section TraceExit.
Import Py Traceroute Scenario.

Lemma string_app_assoc (a b c : string) : (a +:+ b) +:+ c = a +:+ b +:+ c.
Proof.
  induction a as [|x a IH]; [done|].
  change (String x ((a +:+ b) +:+ c) = String x (a +:+ b +:+ c)).
  by rewrite IH.
Qed.

Example str_int_negative : str_int (-15) = "-15".
Proof. reflexivity. Qed.

Example parse_line_star : parse_line " 3  *" = None.
Proof. reflexivity. Qed.

(** The Linux driver skips the header line and reads one hop per line. *)
Example trace_child_ok :
  trace env_linux (get_traceroute env_linux 5 3 64) child_ok "8.8.8.8" "udp"
  = Ok [Some "10.0.0.1"; Some "8.8.8.8"].
Proof. reflexivity. Qed.

Example trace_child_failed :
  trace env_linux (get_traceroute env_linux 5 3 64) child_failed
        "8.8.8.8" "udp"
  = Raise (TracerouteError
      "command 'traceroute -4 -n -q1 8.8.8.8' returned 2, stderr: traceroute: unknown host").
Proof. vm_compute. reflexivity. Qed.

(** C9. Once the child has run with both pipes attached, [trace] returns
    the hops parsed from its output when the exit status is 0, -9 or -15;
    for every other status it raises a [TracerouteError] whose message
    contains the command line joined by spaces and ends with the child's
    stderr. *)
Theorem trace_exit_status (env : platform) (self : Traceroute)
    (child : popen) (host proto chosen : string) (out err : list string) :
  (if bool_decide (proto = "best")
   then _get_best env self (is_ipv6 env host)
   else Ok proto) = Ok chosen →
  stdout child = Some out →
  stderr child = Some err →
  (returncode child ∈ [0; -9; -15] →
   trace env self child host proto = Ok (parse_output self out).1) ∧
  (returncode child ∉ [0; -9; -15] →
   ∃ msg,
     trace env self child host proto = Raise (TracerouteError msg) ∧
     (∃ pre post,
        msg = pre +:+ join " " (trace_cmd env self host chosen) +:+ post) ∧
     (∃ pre, msg = pre +:+ join "" err)).
Proof.
  intros Hproto Hout Herr. unfold trace. rewrite Hproto. simpl.
  rewrite Hout, Herr. split; intros Hrc.
  - by rewrite bool_decide_false by (intros H; by apply H).
  - rewrite bool_decide_true by done. eexists. split; [done|].
    unfold trace_error_message, trace_cmd. split.
    + eexists "command '", _. reflexivity.
    + eexists ("command '" +:+
               join " " (if is_ipv6 env host then _ipv6_cmd self host chosen
                         else _ipv4_cmd self host chosen) +:+
               "' returned " +:+ str_int (returncode child) +:+ ", stderr: ").
      by rewrite !string_app_assoc.
Qed.

Lemma trace_exit_status_witness :
  (if bool_decide ("udp" = "best")
   then _get_best env_linux (get_traceroute env_linux 5 3 64)
          (is_ipv6 env_linux "8.8.8.8")
   else Ok "udp") = Ok "udp" ∧
  stdout child_failed = Some [] ∧
  stderr child_failed = Some ["traceroute: unknown host"] ∧
  (returncode child_failed ∉ [0; -9; -15]) ∧
  ∃ msg,
    trace env_linux (get_traceroute env_linux 5 3 64) child_failed
          "8.8.8.8" "udp" = Raise (TracerouteError msg) ∧
    (∃ pre post,
       msg = pre +:+
             join " " (trace_cmd env_linux (get_traceroute env_linux 5 3 64)
                         "8.8.8.8" "udp") +:+ post) ∧
    (∃ pre, msg = pre +:+ join "" ["traceroute: unknown host"]).
Proof.
  assert (Hrc : returncode child_failed ∉ [0; -9; -15]).
  { apply (bool_decide_unpack _). vm_compute. exact I. }
  split; [reflexivity|]. split; [reflexivity|]. split; [reflexivity|].
  split; [exact Hrc|].
  exact (proj2 (trace_exit_status env_linux (get_traceroute env_linux 5 3 64)
                  child_failed "8.8.8.8" "udp" "udp" []
                  ["traceroute: unknown host"] eq_refl eq_refl eq_refl) Hrc).
Defined.

End TraceExit.

(** ** The reverse-name store *)

Section ReverseStore.
Import Py ReverseQueryLookup StoreScenario.

Lemma contains_true (ip : string) (d : list (string * list string)) :
  ip ∈ d.*1 → contains ip d = true.
Proof. intros H. unfold contains. by rewrite bool_decide_true. Qed.

Lemma contains_false (ip : string) (d : list (string * list string)) :
  ip ∉ d.*1 → contains ip d = false.
Proof. intros H. unfold contains. by rewrite bool_decide_false. Qed.

Lemma delitem_keys (ip k : string) (d : list (string * list string)) :
  k ∈ (delitem ip d).*1 ↔ k ∈ d.*1 ∧ k ≠ ip.
Proof.
  unfold delitem. rewrite !list_elem_of_fmap. split.
  - intros ([k' v] & -> & H). apply list_elem_of_filter in H as [Hne Hin].
    split; [|done]. by exists (k', v).
  - intros (([k' v] & -> & Hin) & Hne). exists (k', v). split; [done|].
    by apply list_elem_of_filter.
Qed.

Lemma delitem_NoDup (ip : string) (d : list (string * list string)) :
  NoDup d.*1 → NoDup (delitem ip d).*1.
Proof.
  unfold delitem. induction d as [|[k v] d IH]; simpl; [done|].
  rewrite NoDup_cons. intros [Hk Hnd].
  destruct (decide (k ≠ ip)) as [Hne|Heq].
  - rewrite filter_cons_True by done. simpl. apply NoDup_cons. split.
    + intros Hin. apply Hk. by apply (delitem_keys ip k d) in Hin as [? _].
    + by apply IH.
  - rewrite filter_cons_False by done. by apply IH.
Qed.

Lemma delitem_length (ip : string) (d : list (string * list string)) :
  ip ∈ d.*1 → (length (delitem ip d) < length d)%nat.
Proof.
  unfold delitem. induction d as [|[k v] d IH]; simpl.
  - intros H. by apply elem_of_nil in H.
  - intros H. destruct (decide (k ≠ ip)) as [Hne|Heq].
    + rewrite filter_cons_True by done. simpl.
      apply elem_of_cons in H as [?|H]; [congruence|].
      specialize (IH H). lia.
    + rewrite filter_cons_False by done.
      pose proof (length_filter (λ kv : string * list string, kv.1 ≠ ip) d).
      lia.
Qed.

(** A new address while there is room goes to the recent end. *)
Lemma reader_step_room (max_items : Z) (ip : string) (names : list string)
    (d : list (string * list string)) :
  ip ∉ d.*1 →
  Z.of_nat (length d) < max_items →
  reader_step max_items ip names d = Ok (d ++ [(ip, names)]).
Proof.
  intros Hip Hlen. unfold reader_step. rewrite contains_false by done.
  rewrite bool_decide_false by lia. simpl. unfold setitem.
  by rewrite contains_false.
Qed.

(** A new address when the store is full: [popitem()] drops the entry at
    the recent end, whatever lies before it stays. *)
Lemma reader_step_full (max_items : Z) (ip : string) (names : list string)
    (d : list (string * list string)) (newest : string * list string) :
  ip ∉ (d ++ [newest]).*1 →
  Z.of_nat (length (d ++ [newest])) >= max_items →
  reader_step max_items ip names (d ++ [newest]) = Ok (d ++ [(ip, names)]).
Proof.
  intros Hip Hlen. unfold reader_step. rewrite contains_false by done.
  rewrite bool_decide_true by done. unfold popitem.
  assert (Hd0 : ip ∉ d.*1).
  { rewrite fmap_app, not_elem_of_app in Hip. tauto. }
  destruct (d ++ [newest]) as [|e rest] eqn:Hd.
  { by destruct d. }
  rewrite <- Hd, removelast_last. simpl. unfold setitem.
  by rewrite contains_false.
Qed.

(** An address already in the store moves to the recent end. *)
Lemma reader_step_present (max_items : Z) (ip : string) (names : list string)
    (d : list (string * list string)) :
  ip ∈ d.*1 →
  Z.of_nat (length d) ≤ max_items →
  reader_step max_items ip names d = Ok (delitem ip d ++ [(ip, names)]).
Proof.
  intros Hip Hlen. unfold reader_step. rewrite contains_true by done.
  pose proof (delitem_length ip d Hip).
  rewrite bool_decide_false by lia. simpl. unfold setitem.
  rewrite contains_false; [done|]. rewrite delitem_keys. tauto.
Qed.

Lemma bounded_snoc (max_items : Z) (ip : string) (names : list string)
    (d : list (string * list string)) :
  NoDup d.*1 →
  ip ∉ d.*1 →
  Z.of_nat (length d) < max_items →
  bounded max_items (d ++ [(ip, names)]).
Proof.
  intros Hnd Hip Hlen. split.
  - rewrite fmap_app. apply NoDup_app. split; [done|].
    split; [|apply NoDup_singleton]. intros k Hk Hk'. simpl in Hk'.
    apply list_elem_of_singleton in Hk'. by subst.
  - rewrite length_app. simpl. lia.
Qed.

(** The bound and the distinctness of the keys survive every step. *)
Lemma reader_step_bounded (max_items : Z) (ip : string) (names : list string)
    (d : list (string * list string)) :
  1 ≤ max_items →
  bounded max_items d →
  ∃ d', reader_step max_items ip names d = Ok d' ∧ bounded max_items d' ∧
        list.last d' = Some (ip, names).
Proof.
  intros Hmax [Hnd Hlen]. destruct (decide (ip ∈ d.*1)) as [Hin|Hout].
  - rewrite reader_step_present by done. eexists. split; [done|].
    split; [|by rewrite last_snoc]. apply bounded_snoc.
    + by apply delitem_NoDup.
    + rewrite delitem_keys. tauto.
    + pose proof (delitem_length ip d Hin). lia.
  - destruct (decide (Z.of_nat (length d) < max_items)) as [Hroom|Hfull].
    + rewrite reader_step_room by done. eexists. split; [done|].
      split; [|by rewrite last_snoc]. by apply bounded_snoc.
    + destruct (decide (d = [])) as [->|Hne]; [simpl in *; lia|].
      destruct (exists_last Hne) as (d0 & newest & ->).
      rewrite reader_step_full by (done || lia). eexists. split; [done|].
      split; [|by rewrite last_snoc].
      rewrite fmap_app in Hnd, Hout. apply NoDup_app in Hnd as (Hnd0 & _ & _).
      rewrite not_elem_of_app in Hout. rewrite length_app in Hlen.
      simpl in Hlen. apply bounded_snoc; [done|tauto|lia].
Qed.

Lemma reader_bounded (max_items : Z) (yields d : list (string * list string)) :
  1 ≤ max_items →
  bounded max_items d →
  ∃ d', reader max_items yields d = Ok d' ∧ bounded max_items d'.
Proof.
  intros Hmax. revert d. induction yields as [|[ip names] rest IH];
    intros d Hd; simpl.
  - by exists d.
  - destruct (reader_step_bounded max_items ip names d Hmax Hd)
      as (d1 & -> & Hd1 & _). simpl. by apply IH.
Qed.

(** A log of distinct addresses that fits is stored as it comes. *)
Lemma reader_fits (max_items : Z) (yields d : list (string * list string)) :
  NoDup (d ++ yields).*1 →
  Z.of_nat (length (d ++ yields)) ≤ max_items →
  reader max_items yields d = Ok (d ++ yields).
Proof.
  revert d. induction yields as [|[ip names] rest IH]; intros d Hnd Hlen;
    simpl.
  - by rewrite app_nil_r.
  - rewrite reader_step_room.
    + simpl. rewrite (IH (d ++ [(ip, names)])); rewrite <- ?app_assoc; done.
    + rewrite fmap_app in Hnd. apply NoDup_app in Hnd as (_ & Hdis & _).
      intros Hin. apply (Hdis ip Hin). simpl. by left.
    + rewrite length_app in Hlen. simpl in Hlen. lia.
Qed.

Lemma address_inj : Inj (=) (=) address.
Proof.
  intros i j H. unfold address in H.
  apply (inj (String.append "2001:db8::")) in H. by apply (inj pretty) in H.
Qed.

Lemma log_keys (n : nat) : (log n).*1 = address <$> seq 0 n.
Proof. unfold log. rewrite <- list_fmap_compose. done. Qed.

Lemma log_NoDup (n : nat) : NoDup (log n).*1.
Proof.
  rewrite log_keys. apply NoDup_fmap_2; [apply address_inj|apply NoDup_seq].
Qed.

Lemma log_length (n : nat) : length (log n) = n.
Proof. unfold log. by rewrite length_fmap, length_seq. Qed.

Lemma log_S (n : nat) :
  log (S n) = log n ++ [(address n, ["host.example.org"])].
Proof. unfold log. by rewrite seq_S, fmap_app. Qed.

Lemma log_fresh (n : nat) : "192.0.2.1" ∉ (log n).*1.
Proof.
  rewrite log_keys. intros H. apply list_elem_of_fmap in H as (i & H & _).
  unfold address in H. discriminate H.
Qed.

Lemma log_head (n : nat) : head (log (S n)).*1 = Some (address 0).
Proof. reflexivity. Qed.

Lemma log_last (n : nat) : list.last (log (S n)).*1 = Some (address n).
Proof. rewrite log_S, fmap_app. apply last_snoc. Qed.

Lemma log_stored (max_items : Z) (n : nat) :
  Z.of_nat n ≤ max_items → reader max_items (log n) [] = Ok (log n).
Proof.
  intros Hn. apply (reader_fits max_items (log n) []).
  - rewrite app_nil_l. apply log_NoDup.
  - rewrite app_nil_l, log_length. exact Hn.
Qed.

(** One address too many for a store filled by [log (S n)]. *)
Lemma log_overflow (max_items : Z) (n : nat) (names : list string) :
  Z.of_nat (S n) >= max_items →
  reader_step max_items "192.0.2.1" names (log (S n))
    = Ok (log n ++ [("192.0.2.1", names)]) ∧
  length (log n ++ [("192.0.2.1", names)]) = S n ∧
  list.last (log n ++ [("192.0.2.1", names)]) = Some ("192.0.2.1", names) ∧
  (∀ i, (i < n)%nat → address i ∈ (log n ++ [("192.0.2.1", names)]).*1) ∧
  address n ∉ (log n ++ [("192.0.2.1", names)]).*1.
Proof.
  intros Hn. split; [|split; [|split; [|split]]].
  - rewrite (log_S n). apply reader_step_full.
    + rewrite <- log_S. apply log_fresh.
    + rewrite <- log_S, log_length. exact Hn.
  - rewrite length_app, log_length. simpl. lia.
  - apply last_snoc.
  - intros i Hi. rewrite fmap_app, log_keys. apply elem_of_app. left.
    apply list_elem_of_fmap. exists i. split; [done|].
    apply elem_of_seq. lia.
  - rewrite fmap_app, log_keys, not_elem_of_app. split.
    + intros H. apply list_elem_of_fmap in H as (i & H & Hi).
      apply address_inj in H. apply elem_of_seq in Hi. lia.
    + simpl. rewrite list_elem_of_singleton. unfold address. discriminate.
Qed.

(** C4 at the capacity the daemon runs with. After 5000 distinct addresses
    the store holds all of them, oldest first. Recording one more address
    keeps the size at 5000 and puts the new address at the recent end, but
    the entry that goes is the newest one, address number 4999; the oldest
    one, address number 0, is still there. *)
Theorem reader_evicts_newest :
  reader MAX_ITEMS (log 5000) [] = Ok (log 5000) ∧
  head (log 5000).*1 = Some (address 0) ∧
  list.last (log 5000).*1 = Some (address 4999) ∧
  ∃ d',
    reader_step MAX_ITEMS "192.0.2.1" ["example.org"] (log 5000) = Ok d' ∧
    length d' = 5000%nat ∧
    list.last d' = Some ("192.0.2.1", ["example.org"]) ∧
    address 0 ∈ d'.*1 ∧
    address 4999 ∉ d'.*1.
Proof.
  assert (Hle : Z.of_nat 5000 ≤ MAX_ITEMS).
  { apply Z.leb_le. vm_compute. reflexivity. }
  assert (Hge : Z.of_nat 5000 >= MAX_ITEMS).
  { apply Z.le_ge. exact Hle. }
  destruct (log_overflow MAX_ITEMS 4999 ["example.org"] Hge)
    as (Hstep & Hlen & Hlast & Hold & Hnew).
  split; [exact (log_stored MAX_ITEMS 5000 Hle)|].
  split; [exact (log_head 4999)|].
  split; [exact (log_last 4999)|].
  exists (log 4999 ++ [("192.0.2.1", ["example.org"])]).
  split; [exact Hstep|]. split; [exact Hlen|]. split; [exact Hlast|].
  split; [|exact Hnew]. apply Hold. apply Nat.ltb_lt. vm_compute. reflexivity.
Qed.

End ReverseStore.

(** ** ROA validation *)

Section RoaValid.
Import Rpki CacheScenario.

Lemma roa_valid_falsy (self : ROAChecker) (asn prefix : pyval) :
  falsy asn = true ∨ asn = PyStr "*" ∨ falsy prefix = true ∨
  prefix = PyStr "*" →
  roa_valid self asn prefix = false.
Proof.
  unfold roa_valid. intros [H | [-> | [H | ->]]].
  - by rewrite H.
  - by rewrite orb_true_r.
  - rewrite H. by destruct (falsy asn || _).
  - rewrite orb_true_r. by destruct (falsy asn || _).
Qed.

(** On string arguments the answer is membership of the pair in the VRPs. *)
Lemma roa_valid_str (self : ROAChecker) (asn prefix : string) :
  roa_valid self (PyStr asn) (PyStr prefix) = true ↔
  asn ≠ "" ∧ asn ≠ "*" ∧ prefix ≠ "" ∧ prefix ≠ "*" ∧
  (str (PyStr asn), str (PyStr prefix)) ∈ valid_prefixes self.
Proof.
  unfold roa_valid. simpl.
  destruct (decide (asn = "")) as [->|Ha]; [simpl; split; [done|tauto]|].
  rewrite (bool_decide_false (asn = "")) by done.
  destruct (decide (asn = "*")) as [->|Hs]; [simpl; split; [done|tauto]|].
  rewrite (bool_decide_false (PyStr asn = PyStr "*")) by congruence.
  destruct (decide (prefix = "")) as [->|Hp]; [simpl; split; [done|tauto]|].
  rewrite (bool_decide_false (prefix = "")) by done.
  destruct (decide (prefix = "*")) as [->|Hq]; [simpl; split; [done|tauto]|].
  rewrite (bool_decide_false (PyStr prefix = PyStr "*")) by congruence.
  simpl. rewrite bool_decide_eq_true, list_elem_of_fmap. split.
  - intros ([a p] & Heq & Hin). simplify_eq/=. done.
  - intros (_ & _ & _ & _ & Hin). by exists (asn, prefix).
Qed.

(** C6 at an integer AS number, which the signature of [roa_valid]
    accepts: the pair of strings is among the VRPs, both arguments are
    neither empty nor a star, and the answer is still false, while the
    same number passed as a string is found. *)
Theorem roa_valid_int_asn :
  (str (PyInt 13335), str (PyStr "1.1.1.0/24")) ∈ valid_prefixes checker ∧
  falsy (PyInt 13335) = false ∧
  falsy (PyStr "1.1.1.0/24") = false ∧
  roa_valid checker (PyInt 13335) (PyStr "1.1.1.0/24") = false ∧
  roa_valid checker (PyStr "13335") (PyStr "1.1.1.0/24") = true.
Proof.
  split; [|by vm_compute].
  apply (bool_decide_unpack _). by vm_compute.
Qed.

End RoaValid.

(** ** The hop cache *)

Section HopCache.
Import NodeInfo CacheScenario.

Lemma lookup_foldl_delete `{Countable K} {A} (m : gmap K A) (ks : list K)
    (i : K) :
  foldl (λ acc k, delete k acc) m ks !! i =
  if decide (i ∈ ks) then None else m !! i.
Proof.
  revert m. induction ks as [|k ks IH]; intros m.
  - destruct (decide (i ∈ [])) as [Hin|_]; [|done].
    by apply elem_of_nil in Hin.
  - change (foldl (λ acc k, delete k acc) m (k :: ks))
      with (foldl (λ acc k, delete k acc) (delete k m) ks).
    rewrite IH. destruct (decide (i ∈ ks)) as [Hin|Hout].
    + rewrite decide_True; [done|]. by right.
    + destruct (decide (i = k)) as [->|Hne].
      * rewrite decide_True by by left. apply lookup_delete_eq.
      * rewrite decide_False; [by apply lookup_delete_ne|].
        rewrite not_elem_of_cons. done.
Qed.

Lemma elem_of_expired_hops (now : Z) (st : caches) (ip : string) :
  ip ∈ expired_hops now st ↔
  ∃ t hops, hop_cache_expire st !! t = Some hops ∧ ip ∈ hops ∧ t < now.
Proof.
  unfold expired_hops. rewrite list_elem_of_bind. split.
  - intros ([t hops] & Hin & Hm). apply elem_of_map_to_list in Hm.
    apply list_elem_of_bind in Hin as (hop & Hin & Hhop).
    case_bool_decide; [|by apply elem_of_nil in Hin].
    apply list_elem_of_singleton in Hin as ->. by exists t, hops.
  - intros (t & hops & Hm & Hin & Hlt). exists (t, hops).
    split; [|by apply elem_of_map_to_list].
    apply list_elem_of_bind. exists ip. split; [|done].
    rewrite bool_decide_true by done. by apply list_elem_of_singleton.
Qed.

Lemma elem_of_expired_times (now : Z) (st : caches) (t : Z) :
  t ∈ expired_times now st ↔ t < now ∧ is_Some (hop_cache_expire st !! t).
Proof.
  unfold expired_times. rewrite list_elem_of_filter, list_elem_of_fmap.
  split.
  - intros [Hlt ([t' hops] & -> & Hm)]. apply elem_of_map_to_list in Hm.
    split; [done|]. by exists hops.
  - intros [Hlt [hops Hm]]. split; [done|]. exists (t, hops).
    split; [done|]. by apply elem_of_map_to_list.
Qed.

(** The sweep, seen through the lookups of the two dictionaries. *)
Lemma expire_hop_cache (now : Z) (st : caches) (ip : string) :
  hop_cache (expire now st) !! ip =
  if decide (ip ∈ expired_hops now st) then None else hop_cache st !! ip.
Proof.
  unfold expire. simpl. rewrite lookup_foldl_delete.
  destruct (decide (ip ∈ expired_hops now st)) as [Hin|Hout].
  - rewrite decide_True; [done|]. by apply elem_of_remove_dups.
  - rewrite decide_False; [done|]. by rewrite elem_of_remove_dups.
Qed.

Lemma expire_hop_cache_expire (now : Z) (st : caches) (t : Z) :
  hop_cache_expire (expire now st) !! t =
  if decide (t < now) then None else hop_cache_expire st !! t.
Proof.
  unfold expire. simpl. rewrite lookup_foldl_delete.
  destruct (decide (t < now)) as [Hlt|Hge].
  - destruct (decide (t ∈ expired_times now st)) as [Hin|Hout]; [done|].
    rewrite elem_of_expired_times in Hout.
    destruct (hop_cache_expire st !! t) eqn:Hm; [|done].
    exfalso. apply Hout. split; [done|]. by eexists.
  - rewrite decide_False; [done|]. rewrite elem_of_expired_times. tauto.
Qed.

Lemma indexed_empty : indexed empty_caches.
Proof. intros ip r H. simpl in H. by rewrite lookup_empty in H. Qed.

(** After the sweep every cached address is listed under a time that has
    not passed, and no passed time is left in the index. *)
Lemma expire_indexed (now : Z) (st : caches) :
  indexed st →
  (∀ ip r, hop_cache (expire now st) !! ip = Some r →
           ∃ t hops, hop_cache_expire (expire now st) !! t = Some hops ∧
                     ip ∈ hops ∧ now ≤ t) ∧
  (∀ t hops, hop_cache_expire (expire now st) !! t = Some hops → now ≤ t).
Proof.
  intros Hinv. split.
  - intros ip r Hr. rewrite expire_hop_cache in Hr.
    destruct (decide (ip ∈ expired_hops now st)) as [|Hout]; [done|].
    destruct (Hinv ip r Hr) as (t & hops & Hm & Hin).
    destruct (decide (t < now)) as [Hlt|Hge].
    + exfalso. apply Hout. apply elem_of_expired_hops. by exists t, hops.
    + exists t, hops. rewrite expire_hop_cache_expire.
      rewrite decide_False by done. split; [done|]. split; [done|lia].
  - intros t hops Hm. rewrite expire_hop_cache_expire in Hm.
    destruct (decide (t < now)); [done|lia].
Qed.

Lemma lookup_phase_indexed (now : Z) (ip : string) (st : caches) :
  indexed st → indexed (lookup_phase now ip st).1.
Proof.
  intros Hinv ip' r Hr. simpl in *.
  destruct (proj1 (expire_indexed now st Hinv) ip' r Hr)
    as (t & hops & Hm & Hin & _).
  by exists t, hops.
Qed.

Lemma store_phase_indexed (now cache_ttl : Z) (ip : string)
    (result : hop_record) (st : caches) :
  indexed st → indexed (store_phase now cache_ttl ip result st).
Proof.
  intros Hinv. unfold store_phase.
  destruct (bool_decide _ && bool_decide _); [|done].
  intros ip' r Hr. simpl in *.
  destruct (decide (ip' = ip)) as [->|Hne].
  - eexists _, _. rewrite lookup_insert_eq. split; [done|].
    apply elem_of_app. right. by apply list_elem_of_singleton.
  - rewrite lookup_insert_ne in Hr by done.
    destruct (Hinv ip' r Hr) as (t & hops & Hm & Hin).
    destruct (decide (t = now + cache_ttl)) as [->|Ht].
    + eexists _, _. rewrite lookup_insert_eq. split; [done|].
      rewrite Hm. simpl. apply elem_of_app. by left.
    + exists t, hops. by rewrite lookup_insert_ne.
Qed.

Lemma run_indexed (evs : list event) : indexed (run evs).
Proof.
  unfold run. assert (H : indexed empty_caches) by apply indexed_empty.
  revert H. generalize empty_caches.
  induction evs as [|e evs IH]; intros st Hst; simpl; [done|].
  apply IH. destruct e as [now a|now cache_ttl a result]; simpl.
  - by apply (lookup_phase_indexed now a).
  - by apply store_phase_indexed.
Qed.

(** C7 (amended). Whatever calls came before, when a call of [hop_info]
    at time [now] returns a cached record for [ip], the sweep it began
    with has removed from the cache every address listed under an expiry
    time below [now] and has left no such time in the index; every
    address still cached is listed under a time that is at least [now],
    and so is [ip]. *)
Theorem cached_hit_not_expired (evs : list event) (now : Z) (ip : string)
    (r : hop_record) :
  (lookup_phase now ip (run evs)).2 = Some r →
  (∀ t hops ip',
     hop_cache_expire (run evs) !! t = Some hops → ip' ∈ hops → t < now →
     hop_cache (lookup_phase now ip (run evs)).1 !! ip' = None) ∧
  (∀ t hops,
     hop_cache_expire (lookup_phase now ip (run evs)).1 !! t = Some hops →
     now ≤ t) ∧
  (∀ ip' r',
     hop_cache (lookup_phase now ip (run evs)).1 !! ip' = Some r' →
     ∃ t hops,
       hop_cache_expire (lookup_phase now ip (run evs)).1 !! t = Some hops ∧
       ip' ∈ hops ∧ now ≤ t) ∧
  (∃ t hops,
     hop_cache_expire (lookup_phase now ip (run evs)).1 !! t = Some hops ∧
     ip ∈ hops ∧ now ≤ t).
Proof.
  intros Hhit. unfold lookup_phase in *. cbn [fst snd] in *.
  destruct (expire_indexed now (run evs) (run_indexed evs)) as [Hcache Hidx].
  split.
  { intros t hops ip' Hm Hin Hlt. rewrite expire_hop_cache.
    rewrite decide_True; [done|]. apply elem_of_expired_hops.
    by exists t, hops. }
  split; [exact Hidx|]. split; [exact Hcache|]. by apply (Hcache ip r).
Qed.

Lemma cached_hit_not_expired_witness :
  (lookup_phase 5 "8.8.8.8" (run [Store 0 10 "8.8.8.8" resolver_record])).2
    = Some resolver_record ∧
  ∃ t hops,
    hop_cache_expire
      (lookup_phase 5 "8.8.8.8"
         (run [Store 0 10 "8.8.8.8" resolver_record])).1 !! t = Some hops ∧
    "8.8.8.8" ∈ hops ∧ 5 ≤ t.
Proof.
  assert (Hhit :
    (lookup_phase 5 "8.8.8.8" (run [Store 0 10 "8.8.8.8" resolver_record])).2
      = Some resolver_record) by (vm_compute; reflexivity).
  split; [exact Hhit|].
  exact (proj2 (proj2 (proj2 (cached_hit_not_expired
                         [Store 0 10 "8.8.8.8" resolver_record] 5 "8.8.8.8"
                         resolver_record Hhit)))).
Defined.

(** C7 as stated fails at the boundary: a record stored at time 0 with a
    TTL of 10 is listed under expiry time 10 only, and a call at time 10
    still returns it from the cache. *)
Lemma cached_hit_counterexample :
  (lookup_phase 10 "8.8.8.8" (run [Store 0 10 "8.8.8.8" resolver_record])).2
    = Some resolver_record ∧
  expiry_times
    (lookup_phase 10 "8.8.8.8"
       (run [Store 0 10 "8.8.8.8" resolver_record])).1 "8.8.8.8" = [10] ∧
  ¬ (10 > 10).
Proof.
  split; [vm_compute; reflexivity|]. split; [vm_compute; reflexivity|]. lia.
Qed.

(** A whole call served from the cache does not consult [get_info]. *)
Example hop_info_hit :
  (hop_info 10 11 3600 "8.8.8.8"
     (λ _, {| asn := Some "*"; hostname := None; country := Some "*";
              cidr := Some "*"; description := Some "*"; domain := None;
              dis := None; roa := Some "invalid"; ip := None |})
     (run [Store 0 10 "8.8.8.8" resolver_record])).2 = resolver_record.
Proof. vm_compute. reflexivity. Qed.

End HopCache.

(** ** The supervisor tick *)

Section Supervisor.
Import Py Tracer PathTraceroute Scenario FleetScenario.

(** The first loop never writes to an object that was in [active_tracers]
    when the tick began: its variable [tracer] is only ever bound to an
    object created during the tick. *)
Lemma add_step_prefix (local_ip : string) (lookup : string → list string)
    (traceproto : option string) (active_destinations : list string)
    (n : nat) (st st' : list Tracer * option nat)
    (e : string * option (list string)) :
  (n ≤ length st.1)%nat →
  (∀ i, st.2 = Some i → (n ≤ i)%nat) →
  add_step local_ip lookup traceproto active_destinations st e = Ok st' →
  take n st'.1 = take n st.1 ∧ (n ≤ length st'.1)%nat ∧
  (∀ i, st'.2 = Some i → (n ≤ i)%nat).
Proof.
  destruct st as [active tracer], e as [addr ports]. simpl.
  intros Hlen Hvar. unfold add_step.
  destruct (bool_decide (addr = local_ip)); [intros [= <-]; done|].
  destruct (bool_decide (addr ∈ active_destinations)).
  - destruct ports as [p|], tracer as [i|]; intros [= <-]; simpl;
      try done.
    split; [|split; [|done]].
    + apply take_alter_ge. by apply Hvar.
    + by rewrite length_alter.
  - unfold init. destruct (bool_decide (addr = "")); [done|].
    simpl. intros [= <-]. simpl. split; [|split].
    + by apply take_app_le.
    + rewrite length_app. simpl. lia.
    + intros i [= <-]. done.
Qed.

Lemma add_loop_prefix (local_ip : string) (lookup : string → list string)
    (traceproto : option string) (active_destinations : list string)
    (n : nat) (es : list (string * option (list string)))
    (st st' : list Tracer * option nat) :
  (n ≤ length st.1)%nat →
  (∀ i, st.2 = Some i → (n ≤ i)%nat) →
  add_loop local_ip lookup traceproto active_destinations es st = Ok st' →
  take n st'.1 = take n st.1.
Proof.
  revert st. induction es as [|e es IH]; intros st Hlen Hvar; simpl.
  - by intros [= <-].
  - destruct (add_step local_ip lookup traceproto active_destinations st e)
      as [st1|err] eqn:Hstep; [|done]. simpl. intros Hrest.
    destruct (add_step_prefix _ _ _ _ n _ _ _ Hlen Hvar Hstep)
      as (Htake & Hlen1 & Hvar1).
    rewrite <- Htake. by apply IH.
Qed.

(** C5 on two snapshots. When the snapshot reports ports 443 and 80 for
    the destination a tracer already runs for, the tick leaves that
    tracer's dports at 443. When a new destination precedes it in the
    snapshot, the ports of the running destination are written into the
    tracer just created for the new one. *)
Theorem tick_dports_stale :
  destination tracer_443 = "8.8.8.8" ∧
  dports tracer_443 = PortsTuple ["443"] ∧
  tick "192.0.2.10" (λ _, []) None snapshot_more_ports [tracer_443]
    = Ok ([tracer_443], []) ∧
  ∃ created,
    tick "192.0.2.10" (λ _, []) None snapshot_new_host [tracer_443]
      = Ok ([tracer_443; created], []) ∧
    destination created = "1.1.1.1" ∧
    dports created = PortsTuple ["443"; "80"].
Proof.
  split; [reflexivity|]. split; [reflexivity|]. split; [reflexivity|].
  eexists. split; [reflexivity|]. split; reflexivity.
Qed.

End Supervisor.

(** ** The publisher *)

Section Publisher.
Import Py Tracer WebsocketServer Scenario FleetScenario.

Lemma elem_of_all_processed_traces
    (m : gmap string (list (Z * string))) (k : Z * string) :
  k ∈ all_processed_traces m ↔ ∃ d l, m !! d = Some l ∧ k ∈ l.
Proof.
  unfold all_processed_traces. rewrite list_elem_of_join. split.
  - intros (l & Hk & Hl). apply list_elem_of_fmap in Hl as ([d l'] & -> & Hm).
    apply elem_of_map_to_list in Hm. by exists d, l'.
  - intros (d & l & Hm & Hk). exists l. split; [done|].
    apply list_elem_of_fmap. exists (d, l). split; [done|].
    by apply elem_of_map_to_list.
Qed.

Lemma own_destination_empty : own_destination ∅.
Proof. intros d l k H. by rewrite lookup_empty in H. Qed.

Lemma own_destination_record (m : gmap string (list (Z * string)))
    (trace_entry : Trace.t) :
  own_destination m →
  own_destination (record_key (Trace.destination trace_entry)
                              (trace_key trace_entry) m).
Proof.
  intros Hinv d l k Hm Hk. unfold record_key in Hm.
  apply lookup_insert_Some in Hm as [[<- <-]|[Hne Hm]].
  - apply elem_of_app in Hk as [Hk|Hk].
    + destruct (m !! Trace.destination trace_entry) as [l|] eqn:Hl.
      * by apply (Hinv _ l).
      * by apply elem_of_nil in Hk.
    + by apply list_elem_of_singleton in Hk as ->.
  - by apply (Hinv d l).
Qed.

Lemma own_destination_delete (m : gmap string (list (Z * string)))
    (d : string) :
  own_destination m → own_destination (delete d m).
Proof.
  intros Hinv d' l k Hm Hk. apply lookup_delete_Some in Hm as [_ Hm].
  by apply (Hinv d' l).
Qed.

Lemma reachable_own_destination (m : gmap string (list (Z * string))) :
  reachable m → own_destination m.
Proof.
  induction 1 as [|m e _ IH _|m d _ IH _].
  - apply own_destination_empty.
  - by apply own_destination_record.
  - by apply own_destination_delete.
Qed.

(** [send_traces] moves between reachable maps. *)
Lemma publish_step_reachable (st : gmap string (list (Z * string)) * list frame)
    (trace_entry : Trace.t) :
  reachable st.1 → reachable (publish_step st trace_entry).1.
Proof.
  destruct st as [m sent]. simpl. intros Hm.
  case_bool_decide; simpl; [done|]. by apply reachable_record.
Qed.

Lemma foldl_publish_reachable (entries : list Trace.t)
    (st : gmap string (list (Z * string)) * list frame) :
  reachable st.1 → reachable (foldl publish_step st entries).1.
Proof.
  revert st. induction entries as [|e entries IH]; intros st Hst; simpl;
    [done|].
  apply IH. by apply publish_step_reachable.
Qed.

Lemma remove_all_reachable (removed_tracers : list Tracer)
    (st st' : gmap string (list (Z * string)) * list frame) :
  reachable st.1 → remove_all removed_tracers st = Ok st' → reachable st'.1.
Proof.
  revert st. induction removed_tracers as [|t rest IH]; intros st Hst; simpl.
  - by intros [= <-].
  - destruct (remove_step st t) as [st1|err] eqn:Hstep; [|done]. simpl.
    apply IH. destruct st as [m sent]. unfold remove_step in Hstep.
    case_bool_decide as Hdom.
    + destruct (list.last (history t)); [|done]. injection Hstep as <-.
      simpl. by apply reachable_delete.
    + by injection Hstep as <-.
Qed.

Lemma send_traces_reachable (active_tracers removed_tracers : list Tracer)
    (m : gmap string (list (Z * string)))
    (st' : gmap string (list (Z * string)) * list frame) :
  reachable m →
  send_traces active_tracers removed_tracers m = Ok st' →
  reachable st'.1.
Proof.
  intros Hm. unfold send_traces. apply remove_all_reachable.
  by apply foldl_publish_reachable.
Qed.

(** C10. In every state a connection's publication map can be in, a key
    stored under destination [d] names [d]; hence a record's key is among
    all processed keys exactly when it is in the list of the record's own
    destination, and the keys left after deleting [d] are exactly the
    former keys that do not name [d]. *)
Theorem publication_keys (m : gmap string (list (Z * string))) :
  reachable m →
  (∀ d l k, m !! d = Some l → k ∈ l → k.2 = d) ∧
  (∀ trace_entry : Trace.t,
     trace_key trace_entry ∈ all_processed_traces m ↔
     trace_key trace_entry ∈ default [] (m !! Trace.destination trace_entry)) ∧
  (∀ d k,
     k ∈ all_processed_traces (delete d m) ↔
     k ∈ all_processed_traces m ∧ k.2 ≠ d).
Proof.
  intros Hr. pose proof (reachable_own_destination m Hr) as Hinv.
  split; [exact Hinv|]. split.
  - intros e. rewrite elem_of_all_processed_traces. split.
    + intros (d & l & Hm & Hk). pose proof (Hinv d l _ Hm Hk) as Hd.
      simpl in Hd. subst d. by rewrite Hm.
    + intros Hk. destruct (m !! Trace.destination e) as [l|] eqn:Hm.
      * by exists (Trace.destination e), l.
      * by apply elem_of_nil in Hk.
  - intros d k. rewrite !elem_of_all_processed_traces. split.
    + intros (d' & l & Hm & Hk). apply lookup_delete_Some in Hm as [Hne Hm].
      split; [by exists d', l|]. rewrite (Hinv d' l k Hm Hk). congruence.
    + intros [(d' & l & Hm & Hk) Hne]. exists d', l. split; [|done].
      apply lookup_delete_Some. split; [|done].
      rewrite <- (Hinv d' l k Hm Hk). congruence.
Qed.

Lemma publication_keys_witness :
  reachable (record_key "8.8.8.8" (0, "8.8.8.8") ∅) ∧
  ∀ d k,
    k ∈ all_processed_traces (delete d (record_key "8.8.8.8" (0, "8.8.8.8") ∅))
    ↔ k ∈ all_processed_traces (record_key "8.8.8.8" (0, "8.8.8.8") ∅) ∧
      k.2 ≠ d.
Proof.
  assert (Hr : reachable (record_key "8.8.8.8" (0, "8.8.8.8") ∅)).
  { apply (reachable_record ∅
             (Trace.mk 0 "8.8.8.8" true 1 path_a TracebackNone
                       (PortsTuple ["443"]) (CnamesInt 2))).
    - apply reachable_empty.
    - apply (bool_decide_unpack _). vm_compute. exact I. }
  split; [exact Hr|].
  exact (proj2 (proj2 (publication_keys _ Hr))).
Defined.

End Publisher.

(** * Further properties *)

(** ** What the loop writes into the history *)

Section LoopHistory.
Import Py Traceroute Tracer Scenario.

(** The record an unfiltered iteration works with. *)
Lemma loop_body_unfiltered (start end_ : Z) (tr : list hop) (self : Tracer)
    (loc : locals) :
  filtered max_ttl tr = false →
  loop_body start tr end_ (self, loc) =
    (if negb (only_changes self) || change_of self loc (merge_step loc tr)
     then set_history
            (history self ++
             [Trace.mk start (destination self)
                (change_of self loc (merge_step loc tr)) (end_ - start)
                (merge_step loc tr) TracebackNone (dports self)
                (CnamesInt 2)]) self
     else self,
     {| last := if change_of self loc (merge_step loc tr)
                then Some (merge_step loc tr) else last loc;
        dports_last := dports self |}).
Proof. intros Hf. unfold loop_body. by rewrite Hf. Qed.

(** A property of every record an iteration can append carries over to
    everything a run of the loop adds to the history. *)
Lemma iterate_added (d : string) (oc : bool) (Q : Trace.t → Prop)
    (evs : list event) (st : Tracer * locals) :
  (∀ self loc start tr end_,
     destination self = d → only_changes self = oc →
     filtered max_ttl tr = false →
     negb oc || change_of self loc (merge_step loc tr) = true →
     Q (Trace.mk start d (change_of self loc (merge_step loc tr))
          (end_ - start) (merge_step loc tr) TracebackNone (dports self)
          (CnamesInt 2))) →
  destination st.1 = d → only_changes st.1 = oc →
  ∃ added, history (foldl step st evs).1 = history st.1 ++ added ∧
           Forall Q added.
Proof.
  intros HQ. revert st. induction evs as [|e evs IH]; intros st Hd Hoc.
  - exists []. by rewrite app_nil_r.
  - change (foldl step st (e :: evs)) with (foldl step (step st e) evs).
    destruct st as [self loc]. simpl in Hd, Hoc.
    destruct e as [start tr end_|p]; cbn [step].
    + destruct (filtered max_ttl tr) eqn:Hf.
      { replace (loop_body start tr end_ (self, loc)) with (self, loc)
          by (unfold loop_body; by rewrite Hf).
        by apply IH. }
      rewrite loop_body_unfiltered by done.
      destruct (negb (only_changes self) || _) eqn:Hemit.
      * lazymatch goal with
        | |- ∃ added, history (foldl step ?st1 evs).1 = _ ∧ _ =>
            destruct (IH st1) as (added & Hadd & Hall); [done|done|]
        end.
        rewrite Hadd. cbn [fst history set_history].
        eexists (_ :: added). rewrite <- app_assoc. split; [done|].
        constructor; [|done]. rewrite Hd. apply HQ; try done.
        by rewrite <- Hoc.
      * lazymatch goal with
        | |- ∃ added, history (foldl step ?st1 evs).1 = _ ∧ _ =>
            by apply (IH st1)
        end.
    + by apply (IH (set_dports p self, loc)).
Qed.

(** X1. The loop only ever appends to the history. Every record it adds
    names the tracer's destination and has an empty traceback, and a
    tracer that records changes only adds nothing but records flagged as
    a change. *)
Theorem loop_history_append_only (evs : list event) (self : Tracer) :
  ∃ added,
    history (iterate evs self).1 = history self ++ added ∧
    Forall (λ T, Trace.destination T = destination self ∧
                 Trace.traceback T = TracebackNone ∧
                 (only_changes self = true → Trace.change T = true)) added.
Proof.
  apply (iterate_added (destination self) (only_changes self)); [|done..].
  intros s loc start tr end_ _ _ _ Hemit. simpl.
  split; [done|]. split; [done|]. intros Hoc. by rewrite Hoc in Hemit.
Qed.

Lemma last_merged_trace (P N : list hop) (s : string) :
  length N = length P →
  list.last N = Some (Some s) →
  list.last (merged_trace P N) = Some (Some s).
Proof.
  intros Hlen HN. rewrite last_lookup in HN |- *.
  rewrite merged_trace_length by done.
  by rewrite (merged_trace_lookup P N _ (Some s)).
Qed.

Lemma filtered_last (tr : list hop) :
  filtered max_ttl tr = false →
  (∃ s, list.last tr = Some (Some s)) ∧ Z.of_nat (length tr) ≠ max_ttl - 1.
Proof.
  unfold filtered. destruct (any tr) eqn:Hany; [|done]. simpl.
  case_bool_decide as Hlen; [done|]. case_bool_decide as Hlast; [done|].
  intros _. split; [|done].
  destruct (list.last tr) as [[s|]|] eqn:Hl; [by exists s|done|].
  apply last_None in Hl. by subst.
Qed.

(** X2. No record the loop adds ends on a missing hop: its hop list is not
    empty, its last hop is an address, and it is never 63 hops long. *)
Theorem loop_records_end_on_a_responder (evs : list event) (self : Tracer) :
  ∃ added,
    history (iterate evs self).1 = history self ++ added ∧
    Forall (λ T, (∃ s, list.last (Trace.trace T) = Some (Some s)) ∧
                 Z.of_nat (length (Trace.trace T)) ≠ 63) added.
Proof.
  apply (iterate_added (destination self) (only_changes self)); [|done..].
  intros s loc start tr end_ _ _ Hf _. simpl.
  destruct (filtered_last tr Hf) as [[h Hh] Hlen].
  rewrite merge_step_length. split; [|done]. exists h.
  unfold merge_step. destruct (last loc) as [l|]; [|done].
  case_bool_decide; [|done]. by apply last_merged_trace.
Qed.

Lemma merged_trace_masked (P N : list hop) :
  length N = length P →
  (∀ i h, N !! i = Some (Some h) → P !! i = Some (Some h)) →
  merged_trace P N = P.
Proof.
  intros Hlen Hagree. apply list_eq. intros i.
  destruct (N !! i) as [h|] eqn:HN.
  - rewrite (merged_trace_lookup P N i h) by done.
    destruct h as [s|]; [|done]. symmetry. by apply Hagree.
  - apply lookup_ge_None in HN.
    rewrite (proj2 (lookup_ge_None _ _)) by (rewrite merged_trace_length; lia).
    symmetry. apply lookup_ge_None. lia.
Qed.

(** X3. Lost probes do not count as a change. When the ports are the ones
    of the previous accepted trace and the new trace has the same length
    and agrees with the previous one wherever a hop answered, a tracer
    that records changes only is left exactly as it was: no record, and
    the remembered hops are still those of the previous trace. *)
Theorem lost_probes_are_masked (start end_ : Z) (self : Tracer)
    (loc : locals) (P N : list hop) :
  last loc = Some P →
  dports_last loc = dports self →
  dports self ≠ PortsNone →
  only_changes self = true →
  filtered max_ttl N = false →
  length N = length P →
  (∀ i h, N !! i = Some (Some h) → P !! i = Some (Some h)) →
  loop_body start N end_ (self, loc) = (self, loc).
Proof.
  intros HP Hd Hnone Hoc Hf Hlen Hagree.
  rewrite loop_body_unfiltered by done.
  assert (Hm : merge_step loc N = P).
  { unfold merge_step. rewrite HP, bool_decide_true by done.
    by apply merged_trace_masked. }
  assert (Hc : change_of self loc (merge_step loc N) = false).
  { unfold change_of. rewrite HP, Hm, Hd.
    rewrite (bool_decide_false (dports self = PortsNone)) by done.
    by rewrite !bool_decide_true. }
  rewrite Hc, Hoc. simpl. destruct loc as [l dl]. simpl in *. by subst.
Qed.

Lemma lost_probes_are_masked_witness :
  loop_body 5 [Some "a"; None; Some "8.8.8.8"] 6
    (tracer_443,
     {| last := Some [Some "a"; Some "b"; Some "8.8.8.8"];
        dports_last := PortsTuple ["443"] |})
  = (tracer_443,
     {| last := Some [Some "a"; Some "b"; Some "8.8.8.8"];
        dports_last := PortsTuple ["443"] |}).
Proof.
  apply (lost_probes_are_masked 5 6 tracer_443 _
           [Some "a"; Some "b"; Some "8.8.8.8"]);
    try reflexivity.
  - discriminate.
  - intros [|[|[|i]]] h H; simpl in H; by simplify_eq.
Defined.

(** X4. A steady path is recorded once. A tracer that records changes
    only, starts with an empty history and has its ports assigned, and
    whose iterations all return the same unfiltered trace, holds exactly
    one record however many iterations it makes: that trace, flagged as a
    change. *)
Theorem steady_path_single_record (evs : list event) (self : Tracer)
    (tr : list hop) :
  only_changes self = true →
  dports self ≠ PortsNone →
  history self = [] →
  filtered max_ttl tr = false →
  evs ≠ [] →
  Forall (λ e, ∃ start end_, e = Iteration start tr end_) evs →
  ∃ T, history (iterate evs self).1 = [T] ∧
       Trace.trace T = tr ∧ Trace.change T = true.
Proof.
  intros Hoc Hnone H0 Hf Hne Hall.
  destruct evs as [|e evs]; [done|]. clear Hne.
  apply Forall_cons in Hall as [(start & end_ & ->) Hall].
  unfold iterate.
  change (foldl step (self, initial_locals) (Iteration start tr end_ :: evs))
    with (foldl step (loop_body start tr end_ (self, initial_locals)) evs).
  rewrite loop_body_unfiltered by done.
  cbn [change_of initial_locals last merge_step dports_last].
  rewrite orb_true_r, H0. cbn [app].
  set (T := Trace.mk start (destination self) true (end_ - start) tr
              TracebackNone (dports self) (CnamesInt 2)).
  set (st := (set_history [T] self,
              {| last := Some tr; dports_last := dports self |})).
  assert (Hfix : foldl step st evs = st).
  { induction evs as [|e evs IH]; [done|].
    apply Forall_cons in Hall as [(s & e' & ->) Hall].
    change (foldl step st (Iteration s tr e' :: evs))
      with (foldl step (loop_body s tr e' st) evs).
    replace (loop_body s tr e' st) with st; [by apply IH|].
    symmetry. by apply (lost_probes_are_masked s e' _ _ tr tr). }
  rewrite Hfix. exists T. done.
Qed.

Lemma steady_path_single_record_witness :
  ∃ T, history (iterate [Iteration 0 path_a 1; Iteration 5 path_a 6;
                         Iteration 10 path_a 12] tracer_443).1 = [T] ∧
       Trace.trace T = path_a ∧ Trace.change T = true.
Proof.
  apply steady_path_single_record; try reflexivity; try discriminate.
  repeat constructor; eexists _, _; reflexivity.
Defined.

(** X5. The closing record is recognisable: in the history of a tracer
    that started empty and has left its loop, a record has an empty hop
    list exactly when it is the last one, and that one is flagged as a
    change and carries the tracer's CNAME chain. *)
Theorem sentinel_is_the_only_empty_record (evs : list event) (now : Z)
    (self : Tracer) :
  history self = [] →
  (∀ i T, history (_loop evs now self) !! i = Some T →
          (Trace.trace T = [] ↔ S i = length (history (_loop evs now self))))
  ∧
  ∃ S, list.last (history (_loop evs now self)) = Some S ∧
       Trace.trace S = [] ∧ Trace.change S = true ∧ Trace.duration S = 0 ∧
       Trace.cnames S = CnamesList (cnames self).
Proof.
  intros H0. pose proof (iterate_hops evs self H0) as Hall.
  unfold _loop. simpl. split.
  - intros i T HT. rewrite length_app. simpl.
    destruct (decide (i < length (history (iterate evs self).1))%nat)
      as [Hlt|Hge].
    + rewrite lookup_app_l in HT by done. split; [|lia].
      intros Hnil. rewrite Forall_forall in Hall. exfalso.
      apply (Hall T); [|done]. by eapply list_elem_of_lookup_2.
    + apply lookup_lt_Some in HT as Hi. rewrite length_app in Hi.
      simpl in Hi. rewrite lookup_app_r in HT by lia.
      replace (i - length (history (iterate evs self).1))%nat with 0%nat
        in HT by lia.
      simpl in HT. injection HT as <-. simpl. split; [lia|done].
  - eexists. rewrite last_snoc. split; [done|]. simpl.
    split; [done|]. split; [done|]. split; [done|].
    f_equal. clear Hall H0. unfold iterate.
    change (cnames self) with (cnames (self, initial_locals).1).
    generalize (self, initial_locals).
    induction evs as [|e evs IH]; intros st; simpl; [done|].
    rewrite IH. destruct st as [s loc], e as [start tr end_|p]; simpl;
      [|done].
    unfold loop_body. destruct (filtered max_ttl tr); [done|].
    by destruct (negb (only_changes s) || _).
Qed.

Lemma sentinel_is_the_only_empty_record_witness :
  history tracer_443 = [] ∧
  ∃ S, list.last (history (_loop [Iteration 0 path_a 1] 9 tracer_443))
         = Some S ∧
       Trace.trace S = [] ∧ Trace.change S = true ∧ Trace.duration S = 0 ∧
       Trace.cnames S = CnamesList (cnames tracer_443).
Proof.
  split; [reflexivity|].
  exact (proj2 (sentinel_is_the_only_empty_record
                  [Iteration 0 path_a 1] 9 tracer_443 eq_refl)).
Defined.

End LoopHistory.

(** ** Back-off and failure accounting *)

Section OneTrace.
Import Py Traceroute Tracer Scenario.

(** X6. While the back-off deadline lies ahead, [one_trace] starts no
    probe: it returns the empty trace and leaves the tracer as it is; the
    loop filters the empty trace, so nothing is recorded either. *)
Theorem backoff_skips_the_probe (env : platform) (now now' : Z)
    (child : popen) (probe_timeout max_ttl : Z) (proto : option string)
    (self : Tracer) (loc : locals) (b start end_ : Z) :
  backoff_until self = Some b →
  now < b →
  one_trace env now now' child probe_timeout max_ttl proto self
    = (self, Ok []) ∧
  loop_body start [] end_ (self, loc) = (self, loc).
Proof.
  intros Hb Hlt. split; [|done].
  unfold one_trace. rewrite Hb. by rewrite bool_decide_true.
Qed.

Lemma backoff_skips_the_probe_witness :
  one_trace env_linux 3 4 child_ok 3 64 None
    (set_failure 2 (Some 10) tracer_443)
  = (set_failure 2 (Some 10) tracer_443, Ok []).
Proof.
  apply (backoff_skips_the_probe env_linux 3 4 child_ok 3 64 None
           (set_failure 2 (Some 10) tracer_443) initial_locals 10 0 0).
  - reflexivity.
  - reflexivity.
Defined.

(** X7. Outside a back-off, with a fixed protocol, [one_trace] never
    raises: a child that exits with an error status counts as an empty
    trace. A trace that contains the destination clears the failure count
    and the deadline; any other trace adds one to the count and, from the
    second failure in a row on, sets the deadline to the clock plus five
    seconds per counted failure. *)
Theorem one_trace_accounts_failures (env : platform) (now now' : Z)
    (child : popen) (probe_timeout max_ttl : Z) (p : string)
    (self : Tracer) (out err : list string) :
  (∀ b, backoff_until self = Some b → b ≤ now) →
  p ≠ "best" →
  stdout child = Some out →
  stderr child = Some err →
  ∃ self' hops,
    one_trace env now now' child probe_timeout max_ttl (Some p) self
      = (self', Ok hops) ∧
    hops = (if bool_decide (returncode child ∈ [0; -9; -15])
            then (parse_output (get_traceroute env 5 probe_timeout max_ttl)
                    out).1
            else []) ∧
    history self' = history self ∧
    (Some (destination self) ∈ hops →
     failcount self' = 0 ∧ backoff_until self' = None) ∧
    (Some (destination self) ∉ hops →
     failcount self' = failcount self + 1 ∧
     backoff_until self' =
       if bool_decide (failcount self + 1 > 1)
       then Some (now' + 5 * (failcount self + 1))
       else backoff_until self).
Proof.
  intros Hback Hp Hout Herr. unfold one_trace.
  assert (Hnb : match backoff_until self with
                | Some b => bool_decide (now < b)
                | None => false
                end = false).
  { destruct (backoff_until self) as [b|] eqn:Hb; [|done].
    apply bool_decide_false. specialize (Hback b eq_refl). lia. }
  rewrite Hnb. unfold Traceroute.trace.
  rewrite (bool_decide_false (p = "best")) by done.
  cbn [mbind result_bind]. rewrite Hout, Herr.
  set (hops := (parse_output (get_traceroute env 5 probe_timeout max_ttl)
                  out).1).
  destruct (decide (returncode child ∈ [0; -9; -15])) as [Hrc|Hrc].
  - rewrite (bool_decide_false (returncode child ∉ [0; -9; -15]))
      by (intros H; by apply H).
    rewrite (bool_decide_true (returncode child ∈ [0; -9; -15])) by done.
    destruct (decide (Some (destination self) ∈ hops)) as [Hin|Hout'].
    + rewrite (bool_decide_false (Some (destination self) ∉ hops))
        by (intros H; by apply H).
      eexists _, _. split; [done|]. split; [done|]. split; [done|].
      split; [done|]. intros H. by destruct H.
    + rewrite (bool_decide_true (Some (destination self) ∉ hops)) by done.
      eexists _, _. split; [done|]. split; [done|]. split; [done|].
      split; [intros H; by destruct Hout'|]. done.
  - rewrite (bool_decide_true (returncode child ∉ [0; -9; -15])) by done.
    rewrite (bool_decide_false (returncode child ∈ [0; -9; -15])) by done.
    rewrite (bool_decide_true (Some (destination self) ∉ [])).
    2:{ apply not_elem_of_nil. }
    eexists _, _. split; [done|]. split; [done|]. split; [done|].
    split; [intros H; by apply elem_of_nil in H|]. done.
Qed.

Lemma one_trace_accounts_failures_witness :
  ∃ self' hops,
    one_trace env_linux 20 21 child_failed 3 64 (Some "udp")
      (set_failure 1 None tracer_443) = (self', Ok hops) ∧
    hops = [] ∧ failcount self' = 2 ∧ backoff_until self' = Some 31.
Proof.
  destruct (one_trace_accounts_failures env_linux 20 21 child_failed 3 64
              "udp" (set_failure 1 None tracer_443) []
              ["traceroute: unknown host"])
    as (self' & hops & Hrun & Hhops & _ & _ & Hfail).
  - intros b H. discriminate H.
  - discriminate.
  - reflexivity.
  - reflexivity.
  - exists self', hops. split; [exact Hrun|].
    assert (Hnil : hops = []) by (rewrite Hhops; vm_compute; reflexivity).
    split; [exact Hnil|]. rewrite Hnil in Hfail.
    destruct (Hfail (not_elem_of_nil _)) as [Hc Hb].
    split; [exact Hc|]. rewrite Hb. reflexivity.
Defined.

End OneTrace.

(** ** Parsing the traceroute output *)

Section ParseOutput.
Import Py Traceroute Tracer Scenario Facts.

Lemma has_space_snoc (w : string) (a : ascii) :
  has_space (w +:+ String a EmptyString) = has_space w || is_space a.
Proof.
  induction w as [|b w IH].
  - change (is_space a || false = false || is_space a). by rewrite orb_comm.
  - change (is_space b || has_space (w +:+ String a EmptyString)
            = is_space b || has_space w || is_space a).
    by rewrite IH, orb_assoc.
Qed.

Lemma snoc_nonempty (w : string) (a : ascii) :
  w +:+ String a EmptyString ≠ "".
Proof. by destruct w. Qed.

(** The fields [str.split()] returns are non-empty and free of space. *)
Lemma split_go_fields (s : string) (cur : option string) :
  (∀ w, cur = Some w → w ≠ "" ∧ has_space w = false) →
  Forall (λ t, t ≠ "" ∧ has_space t = false) (split_go cur s).
Proof.
  revert cur. induction s as [|a s IH]; intros cur Hcur; simpl.
  - destruct cur as [w|]; [|constructor].
    constructor; [by apply Hcur|constructor].
  - destruct (is_space a) eqn:Ha.
    + destruct cur as [w|].
      * constructor; [by apply Hcur|]. by apply IH.
      * by apply IH.
    + apply IH. intros w' [= <-]. destruct cur as [w|].
      * destruct (Hcur w eq_refl) as [_ Hw]. split; [apply snoc_nonempty|].
        by rewrite has_space_snoc, Hw, Ha.
      * split; [done|]. simpl. by rewrite Ha.
Qed.

(** X8. A hop read from a line of output is one of the line's fields: it
    is never empty, never a star, and holds no white space. *)
Theorem parse_line_field (line ip : string) :
  parse_line line = Some ip →
  ip ∈ split line ∧ ip ≠ "" ∧ ip ≠ "*" ∧ has_space ip = false.
Proof.
  unfold parse_line. destruct (split line !! 1%nat) as [t|] eqn:Ht; [|done].
  case_bool_decide as Hstar; [done|]. intros [= <-].
  pose proof (split_go_fields line None) as Hall.
  rewrite Forall_forall in Hall.
  assert (Hin : t ∈ split line) by (by eapply list_elem_of_lookup_2).
  destruct (Hall ltac:(done) t Hin) as [Hne Hsp]. done.
Qed.

Lemma parse_line_field_witness :
  parse_line " 2  8.8.8.8  7.031 ms" = Some "8.8.8.8" ∧
  "8.8.8.8" ≠ "*" ∧ has_space "8.8.8.8" = false.
Proof.
  split; [reflexivity|].
  exact (proj2 (proj2 (parse_line_field " 2  8.8.8.8  7.031 ms" "8.8.8.8"
                         eq_refl))).
Defined.

Lemma parse_lines_spec (giveup starcount : Z) (result : list hop)
    (lines : list string) :
  0 ≤ starcount →
  (∃ front, result = front ++ replicate (Z.to_nat starcount) None) →
  ∃ k,
    (parse_lines giveup starcount result lines).1
      = result ++ take k (parse_line <$> lines) ∧
    ((parse_lines giveup starcount result lines).2 = false →
     (parse_lines giveup starcount result lines).1
       = result ++ (parse_line <$> lines)) ∧
    ((parse_lines giveup starcount result lines).2 = true →
     0 ≤ giveup ∧
     ∃ front, (parse_lines giveup starcount result lines).1
                = front ++ replicate (Z.to_nat giveup) None).
Proof.
  revert starcount result.
  induction lines as [|line rest IH]; intros sc res Hsc [front Hres].
  - exists 0%nat. simpl. rewrite app_nil_r. done.
  - cbn [parse_lines].
    set (sc' := if parse_line line is Some _ then 0 else sc + 1).
    assert (Hsc' : 0 ≤ sc') by (unfold sc'; destruct (parse_line line); lia).
    assert (Hres' : ∃ front', res ++ [parse_line line]
                      = front' ++ replicate (Z.to_nat sc') None).
    { unfold sc'. destruct (parse_line line) as [ip|].
      - exists (res ++ [Some ip]). by rewrite app_nil_r.
      - exists front. rewrite Hres, <- app_assoc. f_equal.
        replace (Z.to_nat (sc + 1)) with (S (Z.to_nat sc)) by lia.
        by rewrite replicate_S_end. }
    case_bool_decide as Hstop.
    + exists 1%nat. cbn [fst snd]. split; [done|]. split; [done|].
      intros _. rewrite <- Hstop. by split.
    + destruct (IH sc' (res ++ [parse_line line]) Hsc' Hres')
        as (k & Hk & Hall & Hterm).
      exists (S k). split; [by rewrite Hk, <- app_assoc|].
      split; [|exact Hterm]. intros Hf. by rewrite (Hall Hf), <- app_assoc.
Qed.

(** X9. [parse_output] returns the hops of the lines it read, in order:
    a prefix of what the whole output parses to (after the header line on
    Linux). When it did not terminate the child it read every line; when
    it did, the hops it returns end with [giveup] missing hops in a row. *)
Theorem parse_output_stops_on_silence (self : Traceroute)
    (output : list string) :
  let lines :=
    match cls self with
    | LinuxTraceroute => tail output
    | _ => output
    end in
  (parse_output self output).1 `prefix_of` (parse_line <$> lines) ∧
  ((parse_output self output).2 = false →
   (parse_output self output).1 = parse_line <$> lines) ∧
  ((parse_output self output).2 = true →
   0 ≤ giveup self ∧
   ∃ front, (parse_output self output).1
              = front ++ replicate (Z.to_nat (giveup self)) None).
Proof.
  intros lines.
  assert (Hpo : parse_output self output
                = parse_lines (giveup self) 0 [] lines).
  { unfold parse_output, lines. by destruct (cls self). }
  rewrite Hpo.
  destruct (parse_lines_spec (giveup self) 0 [] lines) as (k & Hk & Hall & Ht).
  { done. }
  { by exists []. }
  split; [|split; [exact Hall|exact Ht]].
  rewrite Hk. apply prefix_take.
Qed.

End ParseOutput.

(** ** Choosing a protocol and building the command *)

Section ProtocolChoice.
Import Py Traceroute Tracer Scenario.

Lemma cap_by_pref_supported (env : platform) (pref : list string)
    (caps : gset string) :
  list_of_set env caps ≡ₚ elements caps →
  Forall (λ p, p ∈ caps) (cap_by_pref env pref caps).
Proof.
  intros Hperm. unfold cap_by_pref. apply Forall_app. split.
  - apply Forall_forall. intros p Hp.
    by apply list_elem_of_filter in Hp as [? _].
  - apply Forall_forall. intros p Hp. rewrite Hperm in Hp.
    by apply elem_of_elements in Hp.
Qed.

Lemma cap_by_pref_nonempty (env : platform) (pref : list string)
    (c : implementation) (ipv6 privileged : bool) :
  list_of_set env (capabilities env c ipv6 privileged)
    ≡ₚ elements (capabilities env c ipv6 privileged) →
  cap_by_pref env pref (capabilities env c ipv6 privileged) ≠ [].
Proof.
  intros Hperm Hnil. unfold cap_by_pref in Hnil.
  apply app_eq_nil in Hnil as [_ Hnil]. rewrite Hnil in Hperm.
  destruct (capabilities_inhabited env c ipv6 privileged) as [H|H];
    apply elem_of_elements in H; rewrite <- Hperm in H;
    by apply elem_of_nil in H.
Qed.

Lemma cycle_protocol_n_supported (env : platform) (traceroute : Traceroute)
    (caps : gset string) (n : nat) (self : Tracer) (q : list string) :
  cycle_protocols self = Some q →
  q ≠ [] →
  Forall (λ p, p ∈ caps) q →
  Forall (λ r, ∃ p, r = Ok p ∧ p ∈ caps)
         (cycle_protocol_n env traceroute n self).2.
Proof.
  revert self q. induction n as [|n IH]; intros self q Hq Hne Hall.
  - constructor.
  - destruct q as [|p rest]; [done|]. cbn [cycle_protocol_n].
    rewrite (cycle_protocol_head _ _ _ _ _ Hq).
    apply Forall_cons in Hall as [Hp Hrest].
    specialize (IH (set_cycle_protocols (Some (rest ++ [p])) self)
                   (rest ++ [p]) eq_refl).
    destruct (cycle_protocol_n env traceroute n _) as [self' rs].
    simpl in *. constructor; [by exists p|]. apply IH.
    + by destruct rest.
    + apply Forall_app. split; [done|]. by apply Forall_singleton.
Qed.

(** X10. Protocol selection never fails and never leaves the capability
    set: whatever the number of selections a tracer makes, starting with
    its first, each one returns a protocol the destination supports. *)
Theorem selections_are_capabilities (env : platform)
    (traceroute : Traceroute) (self : Tracer) (n : nat) :
  cycle_protocols self = None →
  list_of_set env (capabilities_for_host env traceroute (destination self))
    ≡ₚ elements (capabilities_for_host env traceroute (destination self)) →
  Forall (λ r, ∃ p, r = Ok p ∧
                    p ∈ capabilities_for_host env traceroute
                          (destination self))
         (cycle_protocol_n env traceroute n self).2.
Proof.
  intros Hnone Hperm. destruct n as [|n]; [constructor|].
  cbn [cycle_protocol_n].
  pose proof (cap_by_pref_supported env ["icmp"; "udp"; "tcp"] _ Hperm)
    as Hall.
  pose proof (cap_by_pref_nonempty env ["icmp"; "udp"; "tcp"]
                (cls traceroute) (is_ipv6 env (destination self))
                (IS_PRIVILEGED env) Hperm) as Hne.
  unfold cycle_protocol at 1. rewrite Hnone. cbn [default].
  fold (capabilities_for_host env traceroute (destination self)) in Hne.
  destruct (cap_by_pref env ["icmp"; "udp"; "tcp"] _) as [|p rest];
    [done|].
  apply Forall_cons in Hall as [Hp Hrest].
  pose proof (cycle_protocol_n_supported env traceroute
                (capabilities_for_host env traceroute (destination self)) n
                (set_cycle_protocols (Some (rest ++ [p])) self)
                (rest ++ [p]) eq_refl) as Hn.
  destruct (cycle_protocol_n env traceroute n _) as [self' rs].
  simpl in *. constructor; [by exists p|]. apply Hn.
  - by destruct rest.
  - apply Forall_app. split; [done|]. by apply Forall_singleton.
Qed.

Lemma selections_are_capabilities_witness :
  Forall (λ r, ∃ p, r = Ok p ∧
                    p ∈ capabilities_for_host env_linux
                          (get_traceroute env_linux 5 3 64)
                          (destination tracer_443))
         (cycle_protocol_n env_linux (get_traceroute env_linux 5 3 64) 3
            tracer_443).2.
Proof.
  apply selections_are_capabilities; reflexivity.
Defined.

(** X11. [_get_best] returns a protocol of the capability set; when some
    preferred protocol is supported it is the first such in the order of
    preference. *)
Theorem get_best_is_supported (env : platform) (self : Traceroute)
    (ipv6 : bool) :
  list_of_set env (capabilities env (cls self) ipv6 (IS_PRIVILEGED env))
    ≡ₚ elements (capabilities env (cls self) ipv6 (IS_PRIVILEGED env)) →
  ∃ p,
    _get_best env self ipv6 = Ok p ∧
    p ∈ capabilities env (cls self) ipv6 (IS_PRIVILEGED env) ∧
    ∀ q, head (filter (λ x, x ∈ capabilities env (cls self) ipv6
                                   (IS_PRIVILEGED env)) (pref self))
           = Some q → p = q.
Proof.
  intros Hperm. unfold _get_best.
  pose proof (cap_by_pref_supported env (pref self) _ Hperm) as Hall.
  pose proof (cap_by_pref_nonempty env (pref self) (cls self) ipv6
                (IS_PRIVILEGED env) Hperm) as Hne.
  cbv zeta. unfold cap_by_pref in *.
  destruct (filter _ (pref self)) as [|q0 qs] eqn:Hf.
  - simpl in *. destruct (list_of_set env _) as [|p rest]; [done|].
    exists p. split; [done|]. split; [|done].
    by apply Forall_cons in Hall as [? _].
  - simpl in *. exists q0. split; [done|]. split.
    + by apply Forall_cons in Hall as [? _].
    + by intros q [= <-].
Qed.

Lemma get_best_is_supported_witness :
  ∃ p,
    _get_best env_linux (get_traceroute env_linux 5 3 64) false = Ok p ∧
    p ∈ capabilities env_linux LinuxTraceroute false false.
Proof.
  destruct (get_best_is_supported env_linux
              (get_traceroute env_linux 5 3 64) false (reflexivity _))
    as (p & Hp & Hin & _).
  exists p. split; [exact Hp|exact Hin].
Defined.

(** X12. The command line always ends with the host, and the Linux
    driver builds it without looking at the per-hop timeout or the hop
    limit: two Linux drivers that differ only in those settings run the
    same command. *)
Theorem linux_command_ignores_limits (env : platform)
    (self other : Traceroute) (host proto : string) :
  list.last (trace_cmd env self host proto) = Some host ∧
  (cls self = LinuxTraceroute → cls other = LinuxTraceroute →
   trace_cmd env self host proto = trace_cmd env other host proto).
Proof.
  split.
  - unfold trace_cmd, _ipv6_cmd, _ipv4_cmd.
    destruct (is_ipv6 env host), (cls self);
      repeat case_bool_decide; try done;
      rewrite ?app_assoc; apply last_snoc.
  - intros Hs Ho. unfold trace_cmd, _ipv6_cmd, _ipv4_cmd.
    by rewrite Hs, Ho.
Qed.

End ProtocolChoice.

(** ** Recording and looking up reverse names *)

Section StoreLookup.
Import Py ReverseQueryLookup StoreScenario.

Lemma lookup_absent (d : list (string * list string)) (ip : string) :
  ip ∉ d.*1 → lookup d ip = [].
Proof.
  intros Hip. unfold lookup.
  destruct (list_find _ d) as [[i [k v]]|] eqn:Hf; [|done].
  apply list_find_Some in Hf as (Hi & Hk & _). simpl in Hk. subst k.
  exfalso. apply Hip. apply list_elem_of_fmap. exists (ip, v).
  split; [done|]. by eapply list_elem_of_lookup_2.
Qed.

Lemma lookup_present (d : list (string * list string)) (ip : string)
    (names : list string) :
  NoDup d.*1 → (ip, names) ∈ d → lookup d ip = names.
Proof.
  intros Hnd Hin. unfold lookup.
  destruct (list_find _ d) as [[i [k v]]|] eqn:Hf.
  - apply list_find_Some in Hf as (Hi & Hk & _). simpl in *. subst k.
    apply list_elem_of_lookup in Hin as [j Hj].
    assert (i = j) as ->.
    { eapply NoDup_lookup; [exact Hnd| |]; rewrite list_lookup_fmap.
      - by rewrite Hi.
      - by rewrite Hj. }
    congruence.
  - apply list_find_None in Hf. rewrite Forall_forall in Hf.
    by destruct (Hf _ Hin).
Qed.

(** X13. The store never outgrows its capacity: for a capacity of at
    least one, reading any log into a store with distinct keys and at
    most [max_items] entries never raises, and leaves a store with
    distinct keys and at most [max_items] entries. *)
Theorem store_stays_bounded (max_items : Z)
    (yields d : list (string * list string)) :
  1 ≤ max_items →
  NoDup d.*1 →
  Z.of_nat (length d) ≤ max_items →
  ∃ d', reader max_items yields d = Ok d' ∧
        NoDup d'.*1 ∧ Z.of_nat (length d') ≤ max_items.
Proof.
  intros Hmax Hnd Hlen.
  destruct (reader_bounded max_items yields d Hmax (conj Hnd Hlen))
    as (d' & Hd' & Hnd' & Hlen').
  by exists d'.
Qed.

Lemma store_stays_bounded_witness :
  ∃ d', reader 2 [("192.0.2.1", ["a.example"]); ("192.0.2.2", ["b.example"]);
                  ("192.0.2.3", ["c.example"])] [] = Ok d' ∧
        NoDup d'.*1 ∧ Z.of_nat (length d') ≤ 2.
Proof.
  apply store_stays_bounded.
  - lia.
  - constructor.
  - simpl. lia.
Defined.

(** X14. Recording an address that is already stored moves it to the
    recent end with its new names; the other entries keep their order and
    their names, and nothing is evicted. *)
Theorem rerecord_moves_to_recent_end (max_items : Z) (ip : string)
    (names : list string) (d : list (string * list string)) :
  ip ∈ d.*1 →
  Z.of_nat (length d) ≤ max_items →
  reader_step max_items ip names d
    = Ok (filter (λ kv, kv.1 ≠ ip) d ++ [(ip, names)]).
Proof. intros Hip Hlen. by apply reader_step_present. Qed.

Lemma rerecord_moves_to_recent_end_witness :
  reader_step 2 "192.0.2.1" ["new.example"]
    [("192.0.2.1", ["old.example"]); ("192.0.2.2", ["b.example"])]
  = Ok [("192.0.2.2", ["b.example"]); ("192.0.2.1", ["new.example"])].
Proof.
  apply (rerecord_moves_to_recent_end 2 "192.0.2.1" ["new.example"]
           [("192.0.2.1", ["old.example"]); ("192.0.2.2", ["b.example"])]).
  - apply (bool_decide_unpack _). vm_compute. exact I.
  - simpl. lia.
Defined.

Lemma reader_step_entries (max_items : Z) (ip : string) (names : list string)
    (d d' : list (string * list string)) :
  reader_step max_items ip names d = Ok d' →
  ∃ d0, d' = d0 ++ [(ip, names)] ∧ (ip ∉ d0.*1) ∧ d0 ⊆ d.
Proof.
  unfold reader_step.
  set (d1 := if contains ip d then delitem ip d else d).
  assert (H1 : (ip ∉ d1.*1) ∧ d1 ⊆ d).
  { unfold d1, contains. case_bool_decide as Hin.
    - split; [rewrite delitem_keys; tauto|].
      intros kv Hkv. by apply list_elem_of_filter in Hkv as [_ ?].
    - done. }
  destruct H1 as [Hfresh Hsub].
  destruct (bool_decide (Z.of_nat (length d1) >= max_items)).
  - unfold popitem. destruct d1 as [|e rest] eqn:Hd1; [done|].
    rewrite <- Hd1 in *. cbn [mbind result_bind]. intros [= <-].
    assert (Hrl : removelast d1 ⊆ d1).
    { destruct (exists_last (l := d1)) as (d0 & x & ->); [by rewrite Hd1|].
      rewrite removelast_last. intros kv ?. apply elem_of_app. by left. }
    assert (Hrf : ip ∉ (removelast d1).*1).
    { intros Hin. apply Hfresh. apply list_elem_of_fmap in Hin as (kv & -> & ?).
      apply list_elem_of_fmap. exists kv. split; [done|]. by apply Hrl. }
    exists (removelast d1). unfold setitem. rewrite contains_false by done.
    split; [done|]. split; [done|]. intros kv ?. by apply Hsub, Hrl.
  - cbn [mbind result_bind]. intros [= <-]. exists d1. unfold setitem.
    by rewrite contains_false.
Qed.

(** X15. What was recorded last is what [lookup] returns: after a step
    that records [names] for [ip], [lookup] gives [names] for [ip], gives
    every other address still stored the names it had before, and gives
    the empty list for an address that is not stored. *)
Theorem lookup_after_record (max_items : Z) (ip : string)
    (names : list string) (d d' : list (string * list string)) :
  NoDup d.*1 →
  reader_step max_items ip names d = Ok d' →
  lookup d' ip = names ∧
  (∀ other, other ≠ ip → other ∈ d'.*1 → lookup d' other = lookup d other) ∧
  (∀ other, other ∉ d'.*1 → lookup d' other = []).
Proof.
  intros Hnd Hstep.
  destruct (reader_step_entries _ _ _ _ _ Hstep) as (d0 & -> & Hfresh & Hsub).
  assert (Hnd0 : NoDup d0.*1).
  { destruct (decide (ip ∈ d.*1)) as [Hin|Hout].
    - unfold reader_step in Hstep. rewrite contains_true in Hstep by done.
      pose proof (delitem_NoDup ip d Hnd) as Hdn.
      destruct (bool_decide _) in Hstep.
      + unfold popitem in Hstep.
        destruct (delitem ip d) as [|e r] eqn:Hdel; [done|].
        rewrite <- Hdel in *. cbn [mbind result_bind] in Hstep.
        unfold setitem in Hstep.
        destruct (exists_last (l := delitem ip d)) as (b & x & Hb);
          [by rewrite Hdel|].
        rewrite Hb, removelast_last in Hstep. rewrite Hb in Hdn.
        rewrite fmap_app in Hdn. apply NoDup_app in Hdn as (Hdn & _ & _).
        destruct (contains ip b) eqn:Hc.
        * apply bool_decide_eq_true in Hc. exfalso.
          assert (ip ∈ (delitem ip d).*1) as Hbad.
          { rewrite Hb, fmap_app. apply elem_of_app. by left. }
          apply delitem_keys in Hbad. tauto.
        * injection Hstep as Heq. apply app_inj_tail in Heq as [-> _]. done.
      + cbn [mbind result_bind] in Hstep. unfold setitem in Hstep.
        rewrite contains_false in Hstep by (rewrite delitem_keys; tauto).
        injection Hstep as Heq. apply app_inj_tail in Heq as [<- _]. done.
    - unfold reader_step in Hstep. rewrite contains_false in Hstep by done.
      destruct (bool_decide _) in Hstep.
      + unfold popitem in Hstep. destruct d as [|e r] eqn:Hd; [done|].
        rewrite <- Hd in *. cbn [mbind result_bind] in Hstep.
        destruct (exists_last (l := d)) as (b & x & Hb); [by rewrite Hd|].
        rewrite Hb, removelast_last in Hstep. rewrite Hb in Hnd, Hout.
        rewrite fmap_app in Hnd, Hout.
        apply NoDup_app in Hnd as (Hnd & _ & _).
        rewrite not_elem_of_app in Hout. unfold setitem in Hstep.
        rewrite contains_false in Hstep by tauto.
        injection Hstep as Heq. apply app_inj_tail in Heq as [-> _]. done.
      + cbn [mbind result_bind] in Hstep. unfold setitem in Hstep.
        rewrite contains_false in Hstep by done.
        injection Hstep as Heq. apply app_inj_tail in Heq as [<- _]. done. }
  assert (Hnd' : NoDup (d0 ++ [(ip, names)]).*1).
  { rewrite fmap_app. apply NoDup_app. split; [done|].
    split; [|apply NoDup_singleton]. intros k Hk Hk'.
    apply list_elem_of_singleton in Hk'. simpl in Hk'. by subst. }
  split; [|split].
  - apply lookup_present; [done|]. apply elem_of_app. right.
    by apply list_elem_of_singleton.
  - intros other Hne Hin. rewrite fmap_app in Hin.
    apply elem_of_app in Hin as [Hin|Hin].
    + apply list_elem_of_fmap in Hin as ([k v] & -> & Hkv). simpl in *.
      rewrite (lookup_present _ k v Hnd') by (apply elem_of_app; by left).
      symmetry. apply lookup_present; [done|]. by apply Hsub.
    + apply list_elem_of_singleton in Hin. simpl in Hin. congruence.
  - intros other Hout. by apply lookup_absent.
Qed.

Lemma lookup_after_record_witness :
  lookup [("192.0.2.2", ["b.example"]); ("192.0.2.1", ["new.example"])]
         "192.0.2.1" = ["new.example"].
Proof.
  exact (proj1 (lookup_after_record 2 "192.0.2.1" ["new.example"]
                  [("192.0.2.1", ["old.example"]);
                   ("192.0.2.2", ["b.example"])]
                  [("192.0.2.2", ["b.example"]);
                   ("192.0.2.1", ["new.example"])]
                  ltac:(apply (bool_decide_unpack _); vm_compute; exact I)
                  eq_refl)).
Defined.

(** X16. A capacity of zero or less makes the reader fail on the first
    pair the log yields: the store is empty, it counts as full, and
    [popitem] on an empty dictionary raises [KeyError]. *)
Theorem reader_without_capacity_raises (max_items : Z) (ip : string)
    (names : list string) (rest : list (string * list string)) :
  max_items ≤ 0 →
  reader max_items ((ip, names) :: rest) [] = Raise KeyError.
Proof.
  intros Hmax. cbn [reader]. unfold reader_step.
  rewrite contains_false by apply not_elem_of_nil.
  rewrite bool_decide_true by (simpl; lia). done.
Qed.

Lemma reader_without_capacity_raises_witness :
  reader 0 [("192.0.2.1", ["a.example"])] [] = Raise KeyError.
Proof.
  apply reader_without_capacity_raises. lia.
Defined.

End StoreLookup.

(** ** What the hop cache holds *)

Section CacheContents.
Import NodeInfo CacheScenario.

Lemma step_meaningful (st : caches) (e : event) :
  (∀ ip r, hop_cache st !! ip = Some r →
           asn r ≠ Some "*" ∧ asn r ≠ Some "NA") →
  ∀ ip r, hop_cache (step st e) !! ip = Some r →
          asn r ≠ Some "*" ∧ asn r ≠ Some "NA".
Proof.
  intros Hinv ip0 r. destruct e as [now a|now cache_ttl a result].
  - cbn [step lookup_phase fst]. rewrite expire_hop_cache.
    case_decide; [done|]. apply Hinv.
  - cbn [step]. unfold store_phase.
    destruct (bool_decide (asn result ≠ Some "*")) eqn:H1;
      [destruct (bool_decide (asn result ≠ Some "NA")) eqn:H2|];
      cbn [andb]; try apply Hinv.
    apply bool_decide_eq_true in H1, H2. cbn [hop_cache].
    intros Hl. apply lookup_insert_Some in Hl as [[_ <-]|[_ Hl]]; [done|].
    by apply (Hinv ip0).
Qed.

(** X17. Only resolved hops are cached: whatever calls were made, no
    record in the cache has the AS number ["*"] or ["NA"]. *)
Theorem cached_records_are_resolved (evs : list event) (ip : string)
    (r : hop_record) :
  hop_cache (run evs) !! ip = Some r →
  asn r ≠ Some "*" ∧ asn r ≠ Some "NA".
Proof.
  unfold run. revert ip r.
  assert (H0 : ∀ ip r, hop_cache empty_caches !! ip = Some r →
                       asn r ≠ Some "*" ∧ asn r ≠ Some "NA").
  { intros ip r H. cbn [empty_caches hop_cache] in H.
    by rewrite lookup_empty in H. }
  revert H0. generalize empty_caches.
  induction evs as [|e evs IH]; intros st Hst; [exact Hst|].
  change (foldl step st (e :: evs)) with (foldl step (step st e) evs).
  apply IH. by apply step_meaningful.
Qed.

Lemma cached_records_are_resolved_witness :
  hop_cache (run [Store 0 10 "8.8.8.8" resolver_record]) !! "8.8.8.8"
    = Some resolver_record ∧
  asn resolver_record ≠ Some "*" ∧ asn resolver_record ≠ Some "NA".
Proof.
  assert (H : hop_cache (run [Store 0 10 "8.8.8.8" resolver_record])
                !! "8.8.8.8" = Some resolver_record)
    by (vm_compute; reflexivity).
  split; [exact H|].
  exact (cached_records_are_resolved _ _ _ H).
Defined.

(** X18. A resolved record is served from the cache until its expiry time
    has passed. Stored at [now] with a TTL, it is a hit for every call at
    a time up to [now + cache_ttl], provided the address is not also
    listed under an expiry time that has passed by then; for every call
    after [now + cache_ttl] it is a miss. *)
Theorem stored_record_is_served_until_expiry (st : caches)
    (now cache_ttl t : Z) (ip : string) (r : hop_record) :
  asn r ≠ Some "*" →
  asn r ≠ Some "NA" →
  (t ≤ now + cache_ttl →
   (∀ t' hops, hop_cache_expire st !! t' = Some hops → ip ∈ hops → t ≤ t') →
   (lookup_phase t ip (store_phase now cache_ttl ip r st)).2 = Some r) ∧
  (now + cache_ttl < t →
   (lookup_phase t ip (store_phase now cache_ttl ip r st)).2 = None).
Proof.
  intros Ha Hb.
  assert (Hst : store_phase now cache_ttl ip r st =
                {| hop_cache := <[ip := r]> (hop_cache st);
                   hop_cache_expire :=
                     <[now + cache_ttl :=
                         default [] (hop_cache_expire st !! (now + cache_ttl))
                         ++ [ip]]> (hop_cache_expire st) |}).
  { unfold store_phase. by rewrite !bool_decide_true. }
  rewrite Hst. cbn [lookup_phase snd]. split.
  - intros Hle Hold. rewrite expire_hop_cache.
    rewrite decide_False.
    + cbn [hop_cache]. apply lookup_insert_eq.
    + rewrite elem_of_expired_hops. intros (t' & hops & Hm & Hin & Hlt).
      cbn [hop_cache_expire] in Hm.
      apply lookup_insert_Some in Hm as [[<- _]|[_ Hm]]; [lia|].
      specialize (Hold t' hops Hm Hin). lia.
  - intros Hlt. rewrite expire_hop_cache. rewrite decide_True; [done|].
    apply elem_of_expired_hops. eexists _, _. cbn [hop_cache_expire].
    rewrite lookup_insert_eq. split; [done|]. split; [|done].
    apply elem_of_app. right. by apply list_elem_of_singleton.
Qed.

Lemma stored_record_is_served_until_expiry_witness :
  (lookup_phase 11 "8.8.8.8"
     (store_phase 0 10 "8.8.8.8" resolver_record empty_caches)).2 = None.
Proof.
  apply (stored_record_is_served_until_expiry empty_caches 0 10 11
           "8.8.8.8" resolver_record).
  - discriminate.
  - discriminate.
  - lia.
Defined.

End CacheContents.

(** ** What a supervisor tick does to the fleet *)

Section Fleet.
Import Py Tracer PathTraceroute Scenario FleetScenario.

Lemma destination_alter_dports (p : ports) (i : nat) (l : list Tracer) :
  destination <$> alter (set_dports p) i l = destination <$> l.
Proof.
  apply list_eq. intros j. rewrite !list_lookup_fmap.
  rewrite list_lookup_alter. case_decide; [|done]. subst j.
  destruct (l !! i) as [t|]; reflexivity.
Qed.

(** The first loop, seen from the tracers it creates: [K] holds the
    addresses of the snapshot, [old] the fleet the tick began with. *)
Lemma add_step_shape (local_ip : string) (lookup : string → list string)
    (traceproto : option string) (ads K : list string)
    (old cr : list Tracer) (var : option nat)
    (e : string * option (list string)) (st' : list Tracer * option nat) :
  let P := λ t : Tracer,
    destination t ∈ K ∧ destination t ≠ local_ip ∧ (destination t ∉ ads) ∧
    running t = true ∧ history t = [] ∧ cnames t = lookup (destination t) in
  (∀ i, var = Some i → (length old ≤ i)%nat) →
  Forall P cr →
  e.1 ∈ K →
  add_step local_ip lookup traceproto ads (old ++ cr, var) e = Ok st' →
  ∃ cr',
    st'.1 = old ++ cr' ∧ Forall P cr' ∧
    (∀ i, st'.2 = Some i → (length old ≤ i)%nat) ∧
    (∀ d, d ∈ destination <$> cr → d ∈ destination <$> cr') ∧
    (e.1 ≠ local_ip → e.1 ∈ ads ∨ e.1 ∈ destination <$> cr').
Proof.
  intros P Hvar Hcr HK. destruct e as [addr ports]. simpl in HK.
  unfold add_step. case_bool_decide as Hlocal.
  { intros [= <-]. exists cr. simpl. by repeat split. }
  case_bool_decide as Hads.
  - destruct ports as [p|], var as [i|]; intros [= <-]; simpl;
      try (exists cr; by repeat split; auto).
    exists (alter (set_dports (PortsTuple p)) (i - length old)%nat cr).
    split; [apply alter_app_r_alt; by apply Hvar|].
    split; [|split; [done|split]].
    + apply Forall_alter; [done|]. intros t _ Ht. exact Ht.
    + intros d. by rewrite destination_alter_dports.
    + intros _. by left.
  - unfold init. case_bool_decide as Hempty; [done|].
    cbn [mbind result_bind]. intros [= <-]. simpl.
    eexists (cr ++ [_]). split; [by rewrite app_assoc|].
    split; [|split; [|split]].
    + apply Forall_app. split; [done|]. apply Forall_singleton.
      unfold P. by destruct ports.
    + intros i [= <-]. rewrite length_app. lia.
    + intros d Hd. rewrite fmap_app. apply elem_of_app. by left.
    + intros _. right. rewrite fmap_app. apply elem_of_app. right.
      destruct ports; simpl; by apply list_elem_of_singleton.
Qed.

Lemma add_loop_shape (local_ip : string) (lookup : string → list string)
    (traceproto : option string) (ads K : list string)
    (es : list (string * option (list string)))
    (old cr : list Tracer) (var : option nat)
    (st' : list Tracer * option nat) :
  let P := λ t : Tracer,
    destination t ∈ K ∧ destination t ≠ local_ip ∧ (destination t ∉ ads) ∧
    running t = true ∧ history t = [] ∧ cnames t = lookup (destination t) in
  (∀ i, var = Some i → (length old ≤ i)%nat) →
  Forall P cr →
  (∀ a, a ∈ es.*1 → a ∈ K) →
  add_loop local_ip lookup traceproto ads es (old ++ cr, var) = Ok st' →
  ∃ cr',
    st'.1 = old ++ cr' ∧ Forall P cr' ∧
    (∀ d, d ∈ destination <$> cr → d ∈ destination <$> cr') ∧
    (∀ a, a ∈ es.*1 → a ≠ local_ip →
          a ∈ ads ∨ a ∈ destination <$> cr').
Proof.
  intros P. revert cr var.
  induction es as [|e es IH]; intros cr var Hvar Hcr HK; cbn [add_loop].
  - intros [= <-]. exists cr. simpl. repeat split; try done.
    intros a Ha. by apply elem_of_nil in Ha.
  - destruct (add_step local_ip lookup traceproto ads (old ++ cr, var) e)
      as [[l1 v1]|err] eqn:Hstep; cbn [mbind result_bind]; [|done].
    intros Hrest.
    destruct (add_step_shape _ _ _ _ K _ _ _ _ _ Hvar Hcr
                (HK _ ltac:(by left)) Hstep)
      as (cr1 & Hl1 & Hcr1 & Hv1 & Hmono1 & Hcov1).
    simpl in Hl1, Hv1. subst l1.
    destruct (IH cr1 v1 Hv1 Hcr1 ltac:(intros a Ha; apply HK; by right)
                Hrest) as (cr' & Hst' & Hcr' & Hmono & Hcov).
    exists cr'. split; [done|]. split; [done|]. split.
    + intros d Hd. by apply Hmono, Hmono1.
    + intros a Ha Hne. apply elem_of_cons in Ha as [->|Ha].
      * destruct (Hcov1 Hne) as [?|Hin]; [by left|]. right. by apply Hmono.
      * by apply Hcov.
Qed.

(** The second loop: what it keeps and what it hands over as removed. *)
Lemma remove_loop_spec (fuel : nat) (h : hosts) (i : nat)
    (active removed : list Tracer) :
  (∀ t, t ∈ active → hosts_contains h (destination t) = true →
        t ∈ (remove_loop fuel h i active removed).1) ∧
  (∀ t, t ∈ (remove_loop fuel h i active removed).1 → t ∈ active) ∧
  ∃ extra,
    (remove_loop fuel h i active removed).2 = removed ++ extra ∧
    Forall (λ r, ∃ t, t ∈ active ∧ r = _stop t ∧
                      hosts_contains h (destination t) = false) extra.
Proof.
  revert i active removed.
  induction fuel as [|fuel IH]; intros i active removed.
  { simpl. split; [done|]. split; [done|]. exists []. by rewrite app_nil_r. }
  cbn [remove_loop]. destruct (active !! i) as [tracer|] eqn:Hi.
  2:{ simpl. split; [done|]. split; [done|]. exists [].
      by rewrite app_nil_r. }
  destruct (hosts_contains h (destination tracer)) eqn:Hc; [apply IH|].
  destruct (IH (S i) (delete i active) (removed ++ [_stop tracer]))
    as (Hkeep & Hsub & extra & Hrem & Hall).
  split; [|split].
  - intros t Ht Hpresent. apply Hkeep; [|done].
    rewrite <- (take_drop_middle active i tracer Hi) in Ht.
    rewrite delete_take_drop. apply elem_of_app in Ht as [Ht|Ht].
    + apply elem_of_app. by left.
    + apply elem_of_cons in Ht as [->|Ht]; [congruence|].
      apply elem_of_app. by right.
  - intros t Ht. by eapply list_elem_of_delete_inv, Hsub.
  - exists (_stop tracer :: extra). rewrite Hrem, <- app_assoc.
    split; [done|]. constructor.
    + exists tracer. split; [by eapply list_elem_of_lookup_2|done].
    + eapply Forall_impl; [exact Hall|]. intros r (t & Ht & -> & Hf).
      exists t. split; [by eapply list_elem_of_delete_inv|done].
Qed.

Lemma add_loop_idle (local_ip : string) (lookup : string → list string)
    (traceproto : option string) (ads : list string)
    (es : list (string * option (list string))) (active : list Tracer) :
  (∀ a, a ∈ es.*1 → a = local_ip ∨ a ∈ ads) →
  add_loop local_ip lookup traceproto ads es (active, None)
    = Ok (active, None).
Proof.
  induction es as [|[addr ports] es IH]; intros H; [done|].
  cbn [add_loop]. unfold add_step.
  destruct (H addr ltac:(by left)) as [->|Hin].
  - rewrite bool_decide_true by done. cbn [mbind result_bind].
    apply IH. intros a Ha. apply H. by right.
  - case_bool_decide.
    + cbn [mbind result_bind]. apply IH. intros a Ha. apply H. by right.
    + rewrite bool_decide_true by done. destruct ports;
        cbn [mbind result_bind]; apply IH; intros a Ha; apply H; by right.
Qed.

Lemma remove_loop_idle (fuel : nat) (h : hosts) (i : nat)
    (active removed : list Tracer) :
  (∀ t, t ∈ active → hosts_contains h (destination t) = true) →
  remove_loop fuel h i active removed = (active, removed).
Proof.
  intros H. revert i. induction fuel as [|fuel IH]; intros i; [done|].
  cbn [remove_loop]. destruct (active !! i) as [t|] eqn:Hi; [|done].
  rewrite (H t) by (by eapply list_elem_of_lookup_2). apply IH.
Qed.

(** X19. A tick on an unchanged situation changes nothing: when every
    address of the snapshot is the local address or already traced, and
    every traced destination is in the snapshot, the fleet comes back as
    it was and nothing is handed over as removed. *)
Theorem tick_is_idle_when_nothing_changed (local_ip : string)
    (lookup : string → list string) (traceproto : option string)
    (h : hosts) (active : list Tracer) :
  (∀ a, a ∈ (entries h).*1 →
        a = local_ip ∨ a ∈ destination <$> active) →
  (∀ t, t ∈ active → hosts_contains h (destination t) = true) →
  tick local_ip lookup traceproto h active = Ok (active, []).
Proof.
  intros Hsnap Hfleet. unfold tick. rewrite add_loop_idle by done.
  cbn [mbind result_bind fst]. by rewrite remove_loop_idle.
Qed.

Lemma tick_is_idle_when_nothing_changed_witness :
  tick "192.0.2.10" (λ _, []) None (HostsMapping [("8.8.8.8", ["443"])])
       [tracer_443] = Ok ([tracer_443], []).
Proof.
  apply tick_is_idle_when_nothing_changed.
  - intros a Ha. right. simpl in *. exact Ha.
  - intros t Ht. apply list_elem_of_singleton in Ht. subst t.
    reflexivity.
Defined.



(** Where the tracers of the new fleet come from, and which addresses
    they cover. *)
Lemma tick_fleet_origin (local_ip : string)
    (lookup : string → list string) (traceproto : option string)
    (h : hosts) (active active' removed : list Tracer) :
  tick local_ip lookup traceproto h active = Ok (active', removed) →
  (∀ a, a ∈ (entries h).*1 → a ≠ local_ip → a ∈ destination <$> active') ∧
  (∀ t, t ∈ active' →
        t ∈ active ∨
        (hosts_contains h (destination t) = true ∧
         destination t ≠ local_ip ∧
         (destination t ∉ destination <$> active) ∧
         running t = true ∧ history t = [] ∧
         cnames t = lookup (destination t))).
Proof.
  unfold tick.
  destruct (add_loop _ _ _ _ _ _) as [[added var]|err] eqn:Hadd; [|done].
  cbn [mbind result_bind fst].
  destruct (add_loop_shape local_ip lookup traceproto
              (destination <$> active) (entries h).*1 (entries h)
              active [] None (added, var))
    as (cr & Hshape & Hcr & _ & Hcov).
  { done. } { constructor. } { done. } { by rewrite app_nil_r. }
  simpl in Hshape. subst added.
  pose proof (remove_loop_spec (S (length (active ++ cr))) h 0
                (active ++ cr) []) as Hspec.
  destruct (remove_loop _ h 0 (active ++ cr) []) as [a' r'].
  intros [= -> ->]. destruct Hspec as (Hkeep & Hsub & _).
  simpl in Hkeep, Hsub. split.
  - intros a Ha Hne.
    assert (∃ t, t ∈ active ++ cr ∧ destination t = a) as (t & Ht & <-).
    { destruct (Hcov a Ha Hne) as [Hin|Hin];
        apply list_elem_of_fmap in Hin as (t & -> & Ht); exists t;
        (split; [|done]); apply elem_of_app; [by left|by right]. }
    apply list_elem_of_fmap. exists t. split; [done|].
    apply Hkeep; [done|]. unfold hosts_contains. by rewrite bool_decide_true.
  - intros t Ht. apply Hsub in Ht. apply elem_of_app in Ht as [Ht|Ht];
      [by left|right].
    rewrite Forall_forall in Hcr.
    destruct (Hcr t Ht) as (HK & Hl & Hn & Hr & Hh & Hc).
    unfold hosts_contains. by rewrite bool_decide_true.
Qed.

(** X21. After a tick every address of the snapshot other than the local
    one is traced, and the tick creates tracers for nothing else: a tracer
    of the new fleet is either one of the old fleet or was created in
    this tick for an address of the snapshot that is not the local
    address and was not traced before; a created tracer is running, has
    an empty history and holds the CNAME chain recorded for its
    destination. *)
Theorem tick_traces_the_snapshot (local_ip : string)
    (lookup : string → list string) (traceproto : option string)
    (h : hosts) (active active' removed : list Tracer) :
  tick local_ip lookup traceproto h active = Ok (active', removed) →
  (∀ a, a ∈ (entries h).*1 → a ≠ local_ip → a ∈ destination <$> active') ∧
  (∀ t, t ∈ active' →
        t ∈ active ∨
        (hosts_contains h (destination t) = true ∧
         destination t ≠ local_ip ∧
         (destination t ∉ destination <$> active) ∧
         running t = true ∧ history t = [] ∧
         cnames t = lookup (destination t))).
Proof. apply tick_fleet_origin. Qed.

Lemma tick_traces_the_snapshot_witness :
  tick "192.0.2.10" (λ _, []) None snapshot_new_host [tracer_443]
    = Ok ([tracer_443;
           set_dports (PortsTuple ["443"; "80"])
             (start (set_dports (PortsTuple ["53"])
                       (set_cnames [] (fresh "1.1.1.1" true None))))], []) ∧
  "1.1.1.1" ∈ destination <$>
    [tracer_443;
     set_dports (PortsTuple ["443"; "80"])
       (start (set_dports (PortsTuple ["53"])
                 (set_cnames [] (fresh "1.1.1.1" true None))))].
Proof.
  split; [reflexivity|].
  apply (proj1 (tick_traces_the_snapshot "192.0.2.10" (λ _, []) None
                  snapshot_new_host [tracer_443] _ [] eq_refl)).
  - apply (bool_decide_unpack _). vm_compute. exact I.
  - discriminate.
Defined.

(** X22. An empty address in the snapshot stops the tick: when the empty
    string is a key of the snapshot, is not the local address and is not
    traced yet, the tick raises [ValueError] and returns no fleet. *)
Theorem tick_rejects_empty_destination (local_ip : string)
    (lookup : string → list string) (traceproto : option string)
    (h : hosts) (active : list Tracer) :
  "" ∈ (entries h).*1 →
  local_ip ≠ "" →
  "" ∉ destination <$> active →
  tick local_ip lookup traceproto h active
    = Raise (ValueError "Got empty destination").
Proof.
  intros Hin Hlocal Hnew. unfold tick.
  assert (Hloop : ∀ es st,
            "" ∈ es.*1 →
            add_loop local_ip lookup traceproto (destination <$> active) es st
              = Raise (ValueError "Got empty destination")).
  { induction es as [|[addr ports] es IH]; intros st Hes.
    - by apply elem_of_nil in Hes.
    - cbn [add_loop]. destruct (decide (addr = "")) as [->|Hne].
      + unfold add_step. destruct st as [l v].
        rewrite (bool_decide_false ("" = local_ip)) by done.
        rewrite bool_decide_false by done. unfold init.
        by rewrite bool_decide_true.
      + assert (Hes' : "" ∈ es.*1).
        { simpl in Hes. apply elem_of_cons in Hes as [?|?]; [congruence|done]. }
        destruct (add_step _ _ _ _ st (addr, ports)) as [st1|e] eqn:Hstep.
        * cbn [mbind result_bind]. by apply IH.
        * cbn [mbind result_bind]. unfold add_step in Hstep.
          destruct st as [l v]. case_bool_decide; [done|].
          case_bool_decide; [by destruct ports, v|].
          unfold init in Hstep. case_bool_decide; [congruence|done]. }
  by rewrite Hloop.
Qed.

Lemma tick_rejects_empty_destination_witness :
  tick "192.0.2.10" (λ _, []) None
       (HostsMapping [("8.8.8.8", ["443"]); ("", ["80"])]) [tracer_443]
  = Raise (ValueError "Got empty destination").
Proof.
  apply tick_rejects_empty_destination.
  - apply (bool_decide_unpack _). vm_compute. exact I.
  - discriminate.
  - apply (bool_decide_unpack _). vm_compute. exact I.
Defined.

End Fleet.

(** ** What a subscriber is sent *)

Section Frames.
Import Py Tracer WebsocketServer Scenario FleetScenario PublishScenario.

Lemma all_processed_record (m : gmap string (list (Z * string)))
    (host : string) (key k : Z * string) :
  k ∈ all_processed_traces (record_key host key m) ↔
  k = key ∨ k ∈ all_processed_traces m.
Proof.
  rewrite !elem_of_all_processed_traces. unfold record_key. split.
  - intros (d & l & Hm & Hk).
    apply lookup_insert_Some in Hm as [[<- <-]|[Hne Hm]].
    + apply elem_of_app in Hk as [Hk|Hk].
      * right. destruct (m !! host) as [l0|] eqn:Hl0.
        -- by exists host, l0.
        -- by apply elem_of_nil in Hk.
      * left. by apply list_elem_of_singleton in Hk.
    + right. by exists d, l.
  - intros [->|(d & l & Hm & Hk)].
    + eexists host, _. rewrite lookup_insert_eq. split; [done|].
      apply elem_of_app. right. by apply list_elem_of_singleton.
    + destruct (decide (d = host)) as [->|Hne].
      * eexists host, _. rewrite lookup_insert_eq. split; [done|].
        rewrite Hm. apply elem_of_app. by left.
      * exists d, l. by rewrite lookup_insert_ne.
Qed.

Lemma publish_fold_noop (entries : list Trace.t)
    (st : gmap string (list (Z * string)) * list frame) :
  (∀ e, e ∈ entries → trace_key e ∈ all_processed_traces st.1) →
  foldl publish_step st entries = st.
Proof.
  induction entries as [|e entries IH]; intros H; [done|].
  change (foldl publish_step st (e :: entries))
    with (foldl publish_step (publish_step st e) entries).
  assert (Hstep : publish_step st e = st).
  { destruct st as [m sent]. unfold publish_step.
    rewrite bool_decide_true; [done|]. apply H. by left. }
  rewrite Hstep. apply IH. intros e' He'. apply H. by right.
Qed.

(** The first loop of [send_traces], from any state of the map. *)
Lemma publish_fold_spec (entries : list Trace.t)
    (m : gmap string (list (Z * string))) (sent : list frame) :
  ∃ new,
    (foldl publish_step (m, sent) entries).2 = sent ++ new ∧
    Forall (λ f : frame, f.2 = true ∧ f.1 ∈ entries ∧
                         trace_key f.1 ∉ all_processed_traces m) new ∧
    NoDup ((λ f : frame, trace_key f.1) <$> new) ∧
    (∀ k, k ∈ all_processed_traces (foldl publish_step (m, sent) entries).1
          ↔ k ∈ all_processed_traces m ∨
            k ∈ (λ f : frame, trace_key f.1) <$> new) ∧
    (∀ e, e ∈ entries →
          trace_key e ∈
            all_processed_traces (foldl publish_step (m, sent) entries).1) ∧
    dom m ⊆ dom (foldl publish_step (m, sent) entries).1.
Proof.
  revert m sent. induction entries as [|e entries IH]; intros m sent.
  - exists []. simpl. rewrite app_nil_r. split; [done|].
    split; [constructor|]. split; [constructor|]. split.
    + intros k. split; [by left|]. intros [?|H]; [done|].
      by apply elem_of_nil in H.
    + split; [|done]. intros e He. by apply elem_of_nil in He.
  - change (foldl publish_step (m, sent) (e :: entries))
      with (foldl publish_step (publish_step (m, sent) e) entries).
    unfold publish_step at 2 4 6 8.
    destruct (decide (trace_key e ∈ all_processed_traces m)) as [Hin|Hout].
    + rewrite !bool_decide_true by done.
      destruct (IH m sent) as (new & Hs & Hall & Hnd & Hk & He & Hd).
      exists new. split; [done|]. split.
      { eapply Forall_impl; [exact Hall|]. intros f (? & ? & ?).
        split; [done|]. split; [by right|done]. }
      split; [done|]. split; [done|]. split; [|done].
      intros e' He'. apply elem_of_cons in He' as [->|He']; [|by apply He].
      apply Hk. by left.
    + rewrite !bool_decide_false by done.
      destruct (IH (record_key (Trace.destination e) (trace_key e) m)
                   (sent ++ [(e, true)]))
        as (new & Hs & Hall & Hnd & Hk & He & Hd).
      exists ((e, true) :: new). split; [by rewrite Hs, <- app_assoc|].
      split.
      { constructor.
        - split; [done|]. split; [by left|done].
        - eapply Forall_impl; [exact Hall|]. intros f (? & ? & Hnot).
          split; [done|]. split; [by right|]. intros Hf. apply Hnot.
          apply all_processed_record. by right. }
      split.
      { rewrite fmap_cons. apply NoDup_cons. split; [|done]. simpl.
        intros Hdup. apply list_elem_of_fmap in Hdup as (f & Hf & Hfin).
        rewrite Forall_forall in Hall. destruct (Hall f Hfin) as (_ & _ & Hn).
        apply Hn. apply all_processed_record. left. by symmetry. }
      split.
      { intros k. rewrite Hk, all_processed_record, fmap_cons.
        rewrite elem_of_cons. simpl. tauto. }
      split.
      { intros e' He'. apply elem_of_cons in He' as [->|He']; [|by apply He].
        apply Hk. left. apply all_processed_record. by left. }
      etrans; [|exact Hd]. intros x. rewrite !elem_of_dom. intros [v Hv].
      unfold record_key.
      destruct (decide (x = Trace.destination e)) as [->|Hne].
      * rewrite lookup_insert_eq. by eexists.
      * rewrite lookup_insert_ne by done. by eexists.
Qed.

(** The second loop only sends frames with [new = False]. *)
Lemma remove_all_frames (removed_tracers : list Tracer)
    (st st' : gmap string (list (Z * string)) * list frame) :
  remove_all removed_tracers st = Ok st' →
  ∃ closing, st'.2 = st.2 ++ closing ∧
             Forall (λ f : frame, f.2 = false) closing.
Proof.
  revert st. induction removed_tracers as [|t rest IH]; intros st;
    cbn [remove_all].
  - intros [= <-]. exists []. by rewrite app_nil_r.
  - destruct (remove_step st t) as [st1|err] eqn:Hstep;
      cbn [mbind result_bind]; [|done].
    intros Hrest. destruct (IH st1 Hrest) as (closing & Hc & Hall).
    destruct st as [m sent]. unfold remove_step in Hstep.
    case_bool_decide.
    + destruct (list.last (history t)) as [c|]; [|done].
      injection Hstep as <-. simpl in *. exists ((c, false) :: closing).
      rewrite Hc, <- app_assoc. split; [done|]. by constructor.
    + injection Hstep as <-. by exists closing.
Qed.

Lemma filter_new_frames (new closing : list frame) :
  Forall (λ f : frame, f.2 = true) new →
  Forall (λ f : frame, f.2 = false) closing →
  filter (λ f : frame, f.2 = true) (new ++ closing) = new.
Proof.
  intros Hn Hc. rewrite filter_app.
  assert (filter (λ f : frame, f.2 = true) new = new) as ->.
  { induction Hn as [|f new Hf _ IH]; [done|].
    by rewrite filter_cons_True, IH. }
  assert (filter (λ f : frame, f.2 = true) closing = []) as ->.
  { induction Hc as [|f closing Hf _ IH]; [done|].
    rewrite filter_cons_False; [done|]. by rewrite Hf. }
  by rewrite app_nil_r.
Qed.

(** X23. Sending is idempotent: once a call of [send_traces] with no
    removed tracers has gone through, a second call on the same histories
    sends nothing and leaves the publication map as it is. *)
Theorem send_traces_twice_sends_nothing (active_tracers : list Tracer)
    (m m' : gmap string (list (Z * string))) (frames : list frame) :
  send_traces active_tracers [] m = Ok (m', frames) →
  send_traces active_tracers [] m' = Ok (m', []).
Proof.
  unfold send_traces. cbn [remove_all]. intros [= Hrun].
  destruct (publish_fold_spec (mjoin (history <$> active_tracers)) m [])
    as (new & _ & _ & _ & _ & He & _).
  rewrite Hrun in He. cbn [fst] in He.
  by rewrite (publish_fold_noop _ (m', [])).
Qed.

Lemma send_traces_twice_sends_nothing_witness :
  send_traces [stopped_tracer] [] ∅ = Ok (published, first_frames) ∧
  send_traces [stopped_tracer] [] published = Ok (published, []).
Proof.
  assert (H : send_traces [stopped_tracer] [] ∅
              = Ok (published, first_frames)) by (vm_compute; reflexivity).
  split; [exact H|].
  exact (send_traces_twice_sends_nothing _ _ _ _ H).
Defined.

(** X24. A trace is published at most once, and none is left out. Among
    the frames of one call those sent with [new = True] carry records of
    the active histories whose keys were not in the publication map
    before and are pairwise different; and every record of the active
    histories has its key either already in the map or among those
    frames. *)
Theorem each_trace_is_published_once (active_tracers removed_tracers : list Tracer)
    (m m' : gmap string (list (Z * string))) (frames : list frame) :
  send_traces active_tracers removed_tracers m = Ok (m', frames) →
  NoDup ((λ f : frame, trace_key f.1) <$>
         filter (λ f : frame, f.2 = true) frames) ∧
  Forall (λ f : frame, f.1 ∈ mjoin (history <$> active_tracers) ∧
                       trace_key f.1 ∉ all_processed_traces m)
         (filter (λ f : frame, f.2 = true) frames) ∧
  (∀ e, e ∈ mjoin (history <$> active_tracers) →
        trace_key e ∈ all_processed_traces m ∨
        trace_key e ∈ (λ f : frame, trace_key f.1) <$>
                      filter (λ f : frame, f.2 = true) frames).
Proof.
  unfold send_traces. intros Hrm.
  destruct (publish_fold_spec (mjoin (history <$> active_tracers)) m [])
    as (new & Hs & Hall & Hnd & Hk & He & _).
  destruct (remove_all_frames _ _ _ Hrm) as (closing & Hc & Hcl).
  cbn [snd] in Hc. rewrite Hs in Hc. cbn [app] in Hc. subst frames.
  rewrite filter_new_frames; [|by eapply Forall_impl; [exact Hall|];
                                intros f (? & _)|done].
  split; [done|]. split.
  - eapply Forall_impl; [exact Hall|]. by intros f (_ & ? & ?).
  - intros e Hin. apply Hk. by apply He.
Qed.

Lemma each_trace_is_published_once_witness :
  send_traces [stopped_tracer] [] ∅ = Ok (published, first_frames) ∧
  NoDup ((λ f : frame, trace_key f.1) <$>
         filter (λ f : frame, f.2 = true) first_frames).
Proof.
  assert (H : send_traces [stopped_tracer] [] ∅
              = Ok (published, first_frames)) by (vm_compute; reflexivity).
  split; [exact H|].
  exact (proj1 (each_trace_is_published_once _ _ _ _ _ H)).
Defined.

(** X25. A removed tracer gets one closing frame if it was ever published,
    and none otherwise. After the active histories have been handled: a
    removed tracer whose destination is not in the publication map
    changes nothing; one whose destination is in the map makes the call
    send the last record of its history with [new = False] as the final
    frame and drop the destination from the map; and if that tracer's
    history is empty the call raises [IndexError]. *)
Theorem removed_tracer_closing_frame (active_tracers : list Tracer)
    (tracer : Tracer) (m : gmap string (list (Z * string))) :
  let st := foldl publish_step (m, []) (mjoin (history <$> active_tracers)) in
  (destination tracer ∉ dom st.1 →
   send_traces active_tracers [tracer] m = Ok st) ∧
  (destination tracer ∈ dom st.1 →
   ∀ closing, list.last (history tracer) = Some closing →
     send_traces active_tracers [tracer] m
       = Ok (delete (destination tracer) st.1, st.2 ++ [(closing, false)]) ∧
     destination tracer ∉ dom (delete (destination tracer) st.1)) ∧
  (destination tracer ∈ dom st.1 →
   history tracer = [] →
   send_traces active_tracers [tracer] m = Raise IndexError) ∧
  (destination tracer ∈ dom m → destination tracer ∈ dom st.1).
Proof.
  intros st. unfold send_traces. fold st. cbn [remove_all].
  destruct st as [m1 sent] eqn:Hst. unfold remove_step. cbn [fst snd].
  split; [|split; [|split]].
  - intros Hout. by rewrite bool_decide_false.
  - intros Hin closing Hlast. rewrite bool_decide_true, Hlast by done.
    split; [done|]. rewrite elem_of_dom, lookup_delete_eq.
    by intros [? ?].
  - intros Hin Hnil. by rewrite bool_decide_true, Hnil.
  - intros Hin.
    destruct (publish_fold_spec (mjoin (history <$> active_tracers)) m [])
      as (_ & _ & _ & _ & _ & _ & Hd).
    fold st in Hd. rewrite Hst in Hd. by apply Hd.
Qed.

End Frames.

(** ** Enrichment records *)

Section Enrichment.
Import Rpki NodeInfo.

(** X26. On string arguments [roa_valid] is exactly membership in the
    VRPs: it answers true if and only if neither argument is empty or a
    star and the pair is among the pairs of strings made from the loaded
    entries; and it answers false whenever an argument is [None]. *)
Theorem roa_valid_on_strings (self : ROAChecker) (asn prefix : string) :
  (roa_valid self (PyStr asn) (PyStr prefix) = true ↔
   asn ≠ "" ∧ asn ≠ "*" ∧ prefix ≠ "" ∧ prefix ≠ "*" ∧
   (asn, prefix) ∈ valid_prefixes self) ∧
  roa_valid self PyNone (PyStr prefix) = false ∧
  roa_valid self (PyStr asn) PyNone = false.
Proof.
  split; [apply roa_valid_str|]. split.
  - apply roa_valid_falsy. by left.
  - apply roa_valid_falsy. right; right; by left.
Qed.

End Enrichment.

Section GetInfoRecords.
Import Rpki NodeInfo GetInfo.

Lemma store_phase_resolved (now cache_ttl : Z) (ip : string)
    (r : hop_record) (st : caches) :
  NodeInfo.asn r ≠ Some "*" → NodeInfo.asn r ≠ Some "NA" →
  hop_cache (store_phase now cache_ttl ip r st) !! ip = Some r.
Proof.
  intros Ha Hb. unfold store_phase. rewrite !bool_decide_true by done.
  cbn [andb hop_cache]. apply lookup_insert_eq.
Qed.

(** X27. A private address gets the synthetic record and is cached: the
    registry is not consulted, the AS number is ["private_ip"], the
    description ["RFC1918/RFC4193"], country and prefix are ["*"], the ROA
    state is ["invalid"]; and a call of [hop_info] that misses the cache
    returns this record and leaves it in the cache. *)
Theorem private_hop_is_cached (env : services) (roa_checker : ROAChecker)
    (ip : string) (now now' cache_ttl : Z) (st : caches) :
  is_private env ip = true →
  (lookup_phase now ip st).2 = None →
  let r := get_info env roa_checker ip in
  NodeInfo.asn r = Some "private_ip" ∧
  description r = Some "RFC1918/RFC4193" ∧
  country r = Some "*" ∧ cidr r = Some "*" ∧
  roa r = Some "invalid" ∧ NodeInfo.ip r = Some ip ∧
  (hop_info now now' cache_ttl ip (get_info env roa_checker) st).2 = r ∧
  hop_cache (hop_info now now' cache_ttl ip (get_info env roa_checker) st).1
    !! ip = Some r.
Proof.
  intros Hpriv Hmiss r.
  assert (Hr : r = {| NodeInfo.asn := Some "private_ip";
                      hostname := get_hostname env ip;
                      country := Some "*"; cidr := Some "*";
                      description := Some "RFC1918/RFC4193";
                      domain := get_domain env ip; dis := get_dis env ip;
                      roa := Some "invalid"; NodeInfo.ip := Some ip |}).
  { unfold r, get_info. rewrite Hpriv. reflexivity. }
  rewrite Hr. repeat (split; [reflexivity|]).
  unfold hop_info. destruct (lookup_phase now ip st) as [st1 hit] eqn:Hl.
  simpl in Hmiss. subst hit. fold r. rewrite Hr. split; [done|].
  by apply store_phase_resolved.
Qed.

Lemma private_hop_is_cached_witness :
  roa (get_info sample_services sample_checker "10.0.0.1") = Some "invalid" ∧
  hop_cache (hop_info 0 1 3600 "10.0.0.1"
               (get_info sample_services sample_checker) empty_caches).1
    !! "10.0.0.1" = Some (get_info sample_services sample_checker "10.0.0.1").
Proof.
  destruct (private_hop_is_cached sample_services sample_checker "10.0.0.1"
              0 1 3600 empty_caches eq_refl)
    as (_ & _ & _ & _ & Hroa & _ & _ & Hc).
  - vm_compute. reflexivity.
  - split; [exact Hroa|exact Hc].
Defined.



(** X29. The ROA state of a record is ["valid"] exactly when its AS
    number and its prefix are strings, neither empty nor a star, whose
    pair is among the loaded VRPs; in every other case it is
    ["invalid"]. *)
Theorem valid_roa_is_a_vrp (env : services) (roa_checker : ROAChecker)
    (ip : string) :
  let r := get_info env roa_checker ip in
  (roa r = Some "valid" ↔
   ∃ a c, NodeInfo.asn r = Some a ∧ cidr r = Some c ∧
          a ≠ "" ∧ a ≠ "*" ∧ c ≠ "" ∧ c ≠ "*" ∧
          (a, c) ∈ valid_prefixes roa_checker) ∧
  (roa r = Some "valid" ∨ roa r = Some "invalid").
Proof.
  intros r. unfold r, get_info. cbn [roa NodeInfo.asn cidr].
  set (info := if negb (is_private env ip) then _ else _).
  split.
  - destruct (GetInfo.asn info) as [a|] eqn:Ha;
      destruct (asn_cidr info) as [c|] eqn:Hc; cbn [to_py].
    + destruct (roa_valid roa_checker (PyStr a) (PyStr c)) eqn:Hv.
      * apply roa_valid_str in Hv. split; [|done]. intros _.
        exists a, c. tauto.
      * split; [done|]. intros (a' & c' & [= <-] & [= <-] & H).
        apply roa_valid_str in H. congruence.
    + rewrite roa_valid_falsy by (right; right; by left).
      split; [done|]. by intros (? & ? & _ & [=] & _).
    + rewrite roa_valid_falsy by by left.
      split; [done|]. by intros (? & ? & [=] & _).
    + rewrite roa_valid_falsy by by left.
      split; [done|]. by intros (? & ? & [=] & _).
  - destruct (roa_valid _ _ _); [by left|by right].
Qed.

End GetInfoRecords.

(** ** The sampled snapshot *)

Section Sampling.
Import Py Tracer PathTraceroute Netstat Scenario.

(** X30. No tracer is started for an ignored address. What
    [active_remote_hosts] returns holds, in their original order and with
    their ports, exactly the entries whose address is valid and neither
    loopback nor prefixed by ["fe80:"] or ["::ffff"]; and a tick on that
    snapshot leaves in the fleet only old tracers and tracers for such
    addresses. *)
Theorem sampled_hosts_are_filtered
    (is_valid_ip_address : string → option Z → bool) (ipv4_only : bool)
    (current : option (list (string * list string)))
    (netstat remote_hosts : list (string * list string))
    (local_ip : string) (lookup : string → list string)
    (traceproto : option string) (active active' removed : list Tracer) :
  active_remote_hosts is_valid_ip_address ipv4_only current netstat
    = Hosts remote_hosts →
  tick local_ip lookup traceproto (HostsMapping remote_hosts) active
    = Ok (active', removed) →
  remote_hosts `sublist_of` default netstat current ∧
  Forall (λ kv : string * list string,
            kv.1 ≠ "127.0.0.1" ∧ kv.1 ≠ "::1" ∧
            String.prefix "fe80:" kv.1 = false ∧
            String.prefix "::ffff" kv.1 = false ∧
            is_valid_ip_address kv.1 (if ipv4_only then Some 4 else None)
              = true) remote_hosts ∧
  (∀ t, t ∈ active' →
        t ∈ active ∨
        (destination t ≠ "127.0.0.1" ∧ destination t ≠ "::1" ∧
         String.prefix "fe80:" (destination t) = false ∧
         String.prefix "::ffff" (destination t) = false)).
Proof.
  unfold active_remote_hosts. intros Hsample Htick.
  set (source := match current with Some r => r | None => netstat end)
    in Hsample.
  set (kept := filter _ source) in Hsample.
  destruct (forallb _ kept) eqn:Hvalid; [|done].
  injection Hsample as <-.
  assert (Hall : Forall (λ kv : string * list string,
            kv.1 ≠ "127.0.0.1" ∧ kv.1 ≠ "::1" ∧
            String.prefix "fe80:" kv.1 = false ∧
            String.prefix "::ffff" kv.1 = false ∧
            is_valid_ip_address kv.1 (if ipv4_only then Some 4 else None)
              = true) kept).
  { apply Forall_forall. intros kv Hkv.
    rewrite forallb_forall in Hvalid.
    assert (Hv := Hvalid kv ltac:(by apply list_elem_of_In)).
    apply list_elem_of_filter in Hkv as [[Hhost Hpre] _].
    unfold IGNORE_HOSTS in Hhost. unfold startswith, IGNORE_PREFIXES in Hpre.
    cbn [existsb] in Hpre. rewrite orb_false_r in Hpre.
    apply orb_false_iff in Hpre as [H1 H2].
    rewrite !not_elem_of_cons in Hhost. tauto. }
  split; [|split; [exact Hall|]].
  - unfold kept. destruct current; apply sublist_filter.
  - intros t Ht.
    destruct (proj2 (tick_fleet_origin _ _ _ _ _ _ _ Htick) t Ht)
      as [Hold|(Hc & _)]; [by left|right].
    unfold hosts_contains in Hc. apply bool_decide_eq_true in Hc.
    cbn [entries] in Hc. rewrite <- list_fmap_compose in Hc.
    apply list_elem_of_fmap in Hc as (kv & Hd & Hkv). simpl in Hd.
    rewrite Forall_forall in Hall. rewrite Hd.
    destruct (Hall kv Hkv) as (? & ? & ? & ? & _). done.
Qed.

Lemma sampled_hosts_are_filtered_witness :
  active_remote_hosts (λ _ _, true) false
    (Some [("127.0.0.1", ["53"]); ("8.8.8.8", ["443"])]) []
    = Hosts [("8.8.8.8", ["443"])] ∧
  Forall (λ kv : string * list string,
            kv.1 ≠ "127.0.0.1" ∧ kv.1 ≠ "::1" ∧
            String.prefix "fe80:" kv.1 = false ∧
            String.prefix "::ffff" kv.1 = false ∧
            true = true) [("8.8.8.8", ["443"])].
Proof.
  assert (H : active_remote_hosts (λ _ _, true) false
                (Some [("127.0.0.1", ["53"]); ("8.8.8.8", ["443"])]) []
              = Hosts [("8.8.8.8", ["443"])]) by (vm_compute; reflexivity).
  split; [exact H|].
  exact (proj1 (proj2 (sampled_hosts_are_filtered (λ _ _, true) false _ []
                         _ "192.0.2.10" (λ _, []) None [tracer_443]
                         [tracer_443] [] H eq_refl))).
Defined.

End Sampling.
